(** * r10k-deployerjs: the handler of the modify event (lib/git/modify_action.js)

    A shallow embedding of [runModify] and of the JavaScript library
    functions it relies on ([RegExp.prototype.exec], [String.prototype.replace]
    with a global regular expression, string concatenation with a number),
    followed by the properties of the reconciliation pipeline.

    - JavaScript strings are sequences of UTF-16 code units: a code unit is
      an [N], a string a [list N].
    - The generator body is a sequence of suspending calls to collaborators
      (git utilities, fs-extra, Rundeck, [process]); it is written in a small
      state-and-exception monad whose state holds the two mutable flags of
      the source and the list of collaborator calls performed so far.
    - The answers of the collaborators are the fields of a [world] record,
      one per call site of the source.
    - Calls to the logger are left out.  The callback [cbk] may throw, at
      each of its two call sites.
    - [module_regex] is modelled for a [repoUrl] without syntax characters
      of patterns other than the dot, and the constructor of line 47 is
      known to throw when a quantifier follows a quantifier; the properties
      of the pipeline that do not depend on the pattern are stated for any
      regular expression. *)

From Stdlib Require Import String Ascii NArith ZArith Bool Arith Lia List.
From Stdlib Require Import DecimalString DecimalZ.
Import ListNotations.

Set Implicit Arguments.

(** ** Strings *)

Definition cu := N.
Definition str := list cu.

Definition lit (s : string) : str := map N_of_ascii (list_ascii_of_string s).

Definition dquote : cu := 34%N.
Definition squote : cu := 39%N.
Definition dollar : cu := 36%N.
Definition newline : cu := 10%N.

Fixpoint str_eqb (a b : str) : bool :=
  match a, b with
  | [], [] => true
  | x :: a', y :: b' => N.eqb x y && str_eqb a' b'
  | _, _ => false
  end.

(** [Number.prototype.toString] on an integral number of milliseconds
    (the value of [Date.now()], whose magnitude stays below 1e21, where
    JavaScript still prints plain decimal digits). *)
Definition number_to_string (n : Z) : str :=
  lit (NilZero.string_of_int (Z.to_int n)).

(** ** Regular expressions

    The fragment of ECMAScript patterns that [module_regex] is made of:
    pattern characters, [.], [\s], a class of listed code units and its
    complement, concatenation and the greedy quantifiers [*] and [+]. *)

Inductive atom : Type :=
| Chr (c : cu)            (* a pattern character *)
| Dot                     (* .  without the s flag *)
| Space                   (* \s *)
| OneOf (l : list cu)     (* [...] *)
| NoneOf (l : list cu).   (* [^...] *)

Inductive re : Type :=
| Eps
| At (a : atom)
| Seq (r1 r2 : re)
| Star (r : re).

Definition Plus (r : re) : re := Seq r (Star r).

Definition mem (c : cu) (l : list cu) : bool := existsb (N.eqb c) l.

(** ECMAScript LineTerminator: LF, CR, LS, PS. *)
Definition line_terminator (c : cu) : bool := mem c [10; 13; 8232; 8233]%N.

(** ECMAScript WhiteSpace or LineTerminator, the characters of [\s]. *)
Definition white_space (c : cu) : bool :=
  mem c [9; 10; 11; 12; 13; 32; 160; 5760; 8232; 8233; 8239; 8287; 12288; 65279]%N
  || (N.leb 8192 c && N.leb c 8202).

Definition atom_ok (a : atom) (c : cu) : bool :=
  match a with
  | Chr x => N.eqb c x
  | Dot => negb (line_terminator c)
  | Space => white_space c
  | OneOf l => mem c l
  | NoneOf l => negb (mem c l)
  end.

(** The backtracking matcher as a list of successes: [ms r s] lists, in the
    order in which backtracking tries them, the ways [r] matches a prefix of
    [s], each as (matched prefix, remaining input).  A greedy star tries one
    more iteration before it tries to stop, and an iteration that consumes
    nothing is rejected, as RepeatMatcher does. *)
Fixpoint star_ms (step : str -> list (str * str)) (fuel : nat) (s : str)
  : list (str * str) :=
  match fuel with
  | O => [([], s)]
  | S fuel' =>
      flat_map
        (fun '(p1, r1) =>
           match p1 with
           | [] => []
           | _ :: _ =>
               map (fun '(p2, r2) => (p1 ++ p2, r2)) (star_ms step fuel' r1)
           end)
        (step s)
      ++ [([], s)]
  end.

Fixpoint ms (r : re) (s : str) : list (str * str) :=
  match r with
  | Eps => [([], s)]
  | At a =>
      match s with
      | c :: t => if atom_ok a c then [([c], t)] else []
      | [] => []
      end
  | Seq r1 r2 =>
      flat_map
        (fun '(p1, s1) => map (fun '(p2, s2) => (p1 ++ p2, s2)) (ms r2 s1))
        (ms r1 s)
  | Star r1 => star_ms (ms r1) (length s) s
  end.

(** [$] under the m flag: at the end of the input or before a line
    terminator. *)
Definition at_eol (s : str) : bool :=
  match s with
  | [] => true
  | c :: _ => line_terminator c
  end.

(** A pattern of the shape [(g1)(g2)(g3)$] with the flags [gm]. *)
Record regex : Type := { g1 : re; g2 : re; g3 : re }.

(** The result of a successful match: the input before the match, the three
    captures, the input after the match.  [m[0]] is [whole], [m.index] is
    the length of [before]. *)
Record match_result : Type :=
  { before : str; cap1 : str; cap2 : str; cap3 : str; after : str }.

Definition whole (m : match_result) : str := cap1 m ++ cap2 m ++ cap3 m.

(** One attempt at the current position. *)
Definition match_here (rx : regex) (s : str) : option (str * str * str * str) :=
  hd_error
    (flat_map
       (fun '(c1, s1) =>
          flat_map
            (fun '(c2, s2) =>
               flat_map
                 (fun '(c3, s3) => if at_eol s3 then [(c1, c2, c3, s3)] else [])
                 (ms (g3 rx) s2))
            (ms (g2 rx) s1))
       (ms (g1 rx) s)).

(** The search loop of RegExpBuiltinExec: the attempt moves forward one
    code unit at a time, the end of the input included.  [done] is the
    input already behind the current position. *)
Fixpoint search (rx : regex) (done s : str) : option match_result :=
  match match_here rx s with
  | Some (c1, c2, c3, s3) =>
      Some {| before := done; cap1 := c1; cap2 := c2; cap3 := c3; after := s3 |}
  | None =>
      match s with
      | [] => None
      | c :: t => search rx (done ++ [c]) t
      end
  end.

(** [rx.exec(content)] on a regular expression whose [lastIndex] is 0. *)
Definition exec (rx : regex) (content : str) : option match_result :=
  search rx [] content.

(** ** Replacement templates (GetSubstitution, three captures, no named
    groups) *)

Definition is_digit (c : cu) : bool := N.leb 48 c && N.leb c 57.
Definition digit_val (c : cu) : N := (c - 48)%N.

Definition capture (m : match_result) (i : N) : str :=
  if N.eqb i 1 then cap1 m else if N.eqb i 2 then cap2 m else cap3 m.

Fixpoint expand (m : match_result) (tpl : str) : str :=
  match tpl with
  | [] => []
  | c :: t1 =>
      if negb (N.eqb c dollar) then c :: expand m t1
      else
        match t1 with
        | [] => [c]
        | d1 :: t2 =>
            if N.eqb d1 dollar then dollar :: expand m t2           (* $$ *)
            else if N.eqb d1 96 then before m ++ expand m t2        (* $` *)
            else if N.eqb d1 38 then whole m ++ expand m t2         (* $& *)
            else if N.eqb d1 39 then after m ++ expand m t2         (* $' *)
            else if is_digit d1 then
              let one_digit :=
                if N.leb 1 (digit_val d1) && N.leb (digit_val d1) 3
                then capture m (digit_val d1) ++ expand m t2
                else c :: d1 :: expand m t2 in
              match t2 with
              | d2 :: t3 =>
                  if is_digit d2 then
                    let nn := (10 * digit_val d1 + digit_val d2)%N in
                    if N.leb nn 3 then
                      if N.leb 1 nn then capture m nn ++ expand m t3
                      else c :: d1 :: d2 :: expand m t3
                    else one_digit
                  else one_digit
              | [] => one_digit
              end
            else c :: expand m t1                                   (* a lone $ *)
        end
  end.

(** [content.replace(rx, tpl)] for a global [rx]: [lastIndex] is reset to 0,
    every match from left to right is replaced by the expansion of the
    template, and a search resumes where the previous match ended (one code
    unit further after an empty match).  [fuel] bounds the number of
    matches; [replace] gives one more than the length of the input. *)
Fixpoint replace_from (fuel : nat) (rx : regex) (tpl : str) (done s : str) : str :=
  match fuel with
  | O => s
  | S fuel' =>
      match search rx done s with
      | None => s
      | Some m =>
          skipn (length done) (before m) ++ expand m tpl ++
          match whole m with
          | [] =>
              match after m with
              | [] => []
              | c :: t => c :: replace_from fuel' rx tpl (before m ++ [c]) t
              end
          | _ :: _ => replace_from fuel' rx tpl (before m ++ whole m) (after m)
          end
      end
  end.

Definition replace (rx : regex) (content tpl : str) : str :=
  replace_from (S (length content)) rx tpl [] content.

(** ** The pattern of [module_regex]

    Line 47 builds, with the flags gm, the pattern
      ( repoUrl Q , \s* :ref \s* => \s* Q ) ( NQ + ) ( Q \s* ) $
    where Q is the class of the two quote characters and NQ its complement;
    the text of [repoUrl] is read as part of the pattern.  A code unit that
    is not a syntax character stands for itself and [.] for any code unit
    but a line terminator; a [repoUrl] holding another syntax character
    ([\ ^ $ * + ? ( ) [ ] { } |]) is outside the fragment modelled here. *)

Definition syntax_character (c : cu) : bool :=
  mem c [92; 94; 36; 42; 43; 63; 40; 41; 91; 93; 123; 125; 124]%N.

Fixpoint url_re (u : str) : option re :=
  match u with
  | [] => Some Eps
  | c :: t =>
      if syntax_character c then None
      else option_map (Seq (At (if N.eqb c 46 then Dot else Chr c))) (url_re t)
  end.

Fixpoint chars (s : str) : re :=
  match s with
  | [] => Eps
  | c :: t => Seq (At (Chr c)) (chars t)
  end.

Definition quote : re := At (OneOf [squote; dquote]).
Definition spaces : re := Star (At Space).

Definition module_regex (repoUrl : str) : option regex :=
  option_map
    (fun u =>
       {| g1 := Seq u (Seq quote (Seq (chars (lit ",")) (Seq spaces
                (Seq (chars (lit ":ref")) (Seq spaces
                (Seq (chars (lit "=>")) (Seq spaces quote)))))));
          g2 := Plus (At (NoneOf [squote; dquote]));
          g3 := Seq quote spaces |})
    (url_re repoUrl).

(** ** Events, collaborators and the state of a run *)

Record eventData : Type :=
  { pfrepo : str; branch : str; reponame : str; pushuser : str;
    repourl : str; repopath : str }.

Record rundeck_data : Type :=
  { rd_pushUsername : str; rd_branch : str; rd_module : str; rd_path : str;
    rd_repoUrl : str; rd_type : str }.

Definition error := string.

(** The calls a run makes to its collaborators, with their arguments
    ([gitopts] is given by its [cwd]). *)
Inductive call : Type :=
| GU_clone (gitdir pfileRepo : str)
| GU_fetch (cwd : str)
| GU_branchExist (name cwd : str)
| GU_checkoutExisting (name cwd : str)
| GU_checkoutNew (name cwd : str)
| fse_readFile (path : str)
| fse_writeFile (path data : str)
| GU_commit (moduleName name cwd : str)
| GU_push (name cwd : str)
| RD_runJob (data : rundeck_data)
| fse_remove (dir : str)
| process_chdir (dir : str)
| cbk (err : option error).

Inductive result (A : Type) : Type :=
| Ok (a : A)
| Throw (e : error).
Arguments Ok {A} a.
Arguments Throw {A} e.

(** What the surroundings of one run answer: the clock, the working
    directory and the environment variable read at the start, and the
    outcome of each collaborator call, one field per call site. *)
Record world : Type :=
  { Date_now : Z;
    process_cwd : str;
    PUPPETFILE_GIT_DEFAULT_BRANCH : option str;
    clone_ans : result unit;
    fetch_ans : result unit;
    branchExist_ans : result bool;
    checkoutExisting_ans : result bool;
    checkoutNew_ans : result unit;
    readFile_ans : result str;
    writeFile_ans : result unit;
    commit_ans : result unit;
    push_ans : result unit;
    runJob_ans : result str;
    remove_ans : result unit;          (* fse.remove of the try block *)
    cbk_ans : result unit;             (* cbk(null) of the try block *)
    chdir_ans : result unit;           (* process.chdir of the catch block *)
    catch_remove_ans : result unit;    (* fse.remove of the catch block *)
    catch_cbk_ans : result unit }.     (* cbk(err) of the catch block *)

Record state : Type :=
  { calls : list call;
    fullDeploymentNeeded : bool;
    commitNeeded : bool }.

Definition init : state :=
  {| calls := []; fullDeploymentNeeded := false; commitNeeded := false |}.

(** ** The monad of the generator body *)

Definition M (A : Type) : Type := state -> result A * state.

Definition ret {A} (a : A) : M A := fun st => (Ok a, st).

Definition bind {A B} (m : M A) (k : A -> M B) : M B :=
  fun st =>
    match m st with
    | (Ok a, st') => k a st'
    | (Throw e, st') => (Throw e, st')
    end.

Declare Scope gen_scope.
Delimit Scope gen_scope with gen.
Notation "x <- m ;; k" := (bind m (fun x => k))
  (at level 100, m at next level, right associativity) : gen_scope.
Notation "m ;; k" := (bind m (fun _ => k))
  (at level 100, right associativity) : gen_scope.
Open Scope gen_scope.

(** A suspending call: it is recorded, and its answer is the world's. *)
Definition yield {A} (c : call) (ans : result A) : M A :=
  fun st =>
    (ans, {| calls := calls st ++ [c];
             fullDeploymentNeeded := fullDeploymentNeeded st;
             commitNeeded := commitNeeded st |}).

Definition set_fullDeploymentNeeded (b : bool) : M unit :=
  fun st =>
    (Ok tt, {| calls := calls st; fullDeploymentNeeded := b;
               commitNeeded := commitNeeded st |}).

Definition set_commitNeeded (b : bool) : M unit :=
  fun st =>
    (Ok tt, {| calls := calls st;
               fullDeploymentNeeded := fullDeploymentNeeded st;
               commitNeeded := b |}).

Definition get_fullDeploymentNeeded : M bool :=
  fun st => (Ok (fullDeploymentNeeded st), st).

Definition get_commitNeeded : M bool :=
  fun st => (Ok (commitNeeded st), st).

Definition when (b : bool) (m : M unit) : M unit := if b then m else ret tt.

Definition try_catch {A} (body : M A) (handler : error -> M A) : M A :=
  fun st =>
    match body st with
    | (Ok a, st') => (Ok a, st')
    | (Throw e, st') => handler e st'
    end.

(** ** runModify *)

Definition production : str := lit "production".

Definition defaultBranch (w : world) : str :=
  match PUPPETFILE_GIT_DEFAULT_BRANCH w with
  | Some (c :: s) => c :: s
  | _ => production
  end.

Definition puppetfileBranchName (w : world) (e : eventData) : str :=
  if str_eqb (branch e) production then defaultBranch w else branch e.

Definition gitdir (w : world) : str :=
  lit "/var/tmp/puppetfile_repo_" ++ number_to_string (Date_now w).

Definition pfile (w : world) : str := gitdir w ++ lit "/Puppetfile".

(** A Puppetfile entry in the shape the handler writes, with [q] as the
    quote character. *)
Definition entry (q : cu) (name url ref : str) : str :=
  lit "mod " ++ q :: name ++ q :: lit "," ++
  newline :: lit "  :git => " ++ q :: url ++ q :: lit "," ++
  newline :: lit "  :ref => " ++ q :: ref ++ q :: [newline].

(** The text appended for a module the Puppetfile does not mention
    (line 89). *)
Definition new_entry (e : eventData) : str :=
  newline :: entry dquote (reponame e) (repourl e) (branch e).

(** The replacement template ['$1'+branchName+'$3']. *)
Definition ref_template (e : eventData) : str :=
  lit "$1" ++ branch e ++ lit "$3".

Definition make_rundeck_data (w : world) (e : eventData) (type : str)
  : rundeck_data :=
  {| rd_pushUsername := pushuser e; rd_branch := puppetfileBranchName w e;
     rd_module := reponame e; rd_path := repopath e; rd_repoUrl := repourl e;
     rd_type := type |}.

(** Lines 63-77: check out the branch, or create it. *)
Definition checkout_branch (w : world) (e : eventData) (branchExist : bool)
  : M unit :=
  if branchExist then
    merged <- yield (GU_checkoutExisting (puppetfileBranchName w e) (gitdir w))
                    (checkoutExisting_ans w) ;;
    set_fullDeploymentNeeded merged
  else
    yield (GU_checkoutNew (puppetfileBranchName w e) (gitdir w))
          (checkoutNew_ans w) ;;
    set_commitNeeded true ;;
    set_fullDeploymentNeeded true.

(** Lines 82-117: update the reference of the module in the Puppetfile. *)
Definition update_puppetfile (module_regex : regex) (w : world)
    (e : eventData) (content : str) : M unit :=
  match exec module_regex content with
  | None =>
      yield (fse_writeFile (pfile w) (content ++ new_entry e))
            (writeFile_ans w) ;;
      set_commitNeeded true
  | Some moduleDefined =>
      if negb (str_eqb (cap2 moduleDefined) (puppetfileBranchName w e))
         && negb (str_eqb (cap2 moduleDefined) production)
      then
        yield (fse_writeFile (pfile w)
                 (replace module_regex content (ref_template e)))
              (writeFile_ans w) ;;
        set_commitNeeded true
      else ret tt
  end.

(** Lines 127-141: commit, then push, each if needed. *)
Definition commit_and_push (w : world) (e : eventData) : M unit :=
  commitNeeded <- get_commitNeeded ;;
  when commitNeeded
    (yield (GU_commit (reponame e) (puppetfileBranchName w e) (gitdir w))
           (commit_ans w)) ;;
  commitNeeded <- get_commitNeeded ;;
  fullDeploymentNeeded <- get_fullDeploymentNeeded ;;
  when (commitNeeded || fullDeploymentNeeded)
    (yield (GU_push (puppetfileBranchName w e) (gitdir w)) (push_ans w)).

(** Lines 147-159: the Rundeck job. *)
Definition deploy (w : world) (e : eventData) : M str :=
  fullDeploymentNeeded <- get_fullDeploymentNeeded ;;
  yield (RD_runJob
           (make_rundeck_data w e
              (if fullDeploymentNeeded then lit "deploy_env"
               else lit "deploy_mod")))
        (runJob_ans w).

(** The try block, lines 49-168. *)
Definition try_block (module_regex : regex) (w : world) (e : eventData)
  : M unit :=
  yield (GU_clone (gitdir w) (pfrepo e)) (clone_ans w) ;;
  yield (GU_fetch (gitdir w)) (fetch_ans w) ;;
  branchExist <- yield (GU_branchExist (puppetfileBranchName w e) (gitdir w))
                       (branchExist_ans w) ;;
  checkout_branch w e branchExist ;;
  content <- yield (fse_readFile (pfile w)) (readFile_ans w) ;;
  update_puppetfile module_regex w e content ;;
  commit_and_push w e ;;
  rd_job_status <- deploy w e ;;
  yield (fse_remove (gitdir w)) (remove_ans w) ;;
  yield (cbk None) (cbk_ans w).

(** The catch block, lines 170-181. *)
Definition catch_block (w : world) (err : error) : M unit :=
  yield (process_chdir (process_cwd w)) (chdir_ans w) ;;
  yield (fse_remove (gitdir w)) (catch_remove_ans w) ;;
  yield (cbk (Some err)) (catch_cbk_ans w).

(** The body of the generator once [module_regex] is built (line 47). *)
Definition runModify_from (module_regex : regex) (w : world) (e : eventData)
  : M unit :=
  try_catch (try_block module_regex w e) (catch_block w).

(** The constructor of line 47, which stands before the try block.  For a
    [repoUrl] of the modelled fragment it builds [module_regex].  It is
    known to throw when, before any other syntax character of [repoUrl], a
    [*] or a [+] is followed by a [*] or a [+] (nothing to repeat).  For
    any other [repoUrl] its outcome is not modelled. *)
Definition quantifier (c : cu) : bool := mem c [42; 43]%N.

Fixpoint nothing_to_repeat (u : str) : bool :=
  match u with
  | c :: ((d :: _) as t) =>
      if syntax_character c then quantifier c && quantifier d
      else nothing_to_repeat t
  | _ => false
  end.

Definition new_RegExp (repoUrl : str) : option (result regex) :=
  match module_regex repoUrl with
  | Some rx => Some (Ok rx)
  | None =>
      if nothing_to_repeat repoUrl
      then Some (Throw "SyntaxError: Nothing to repeat"%string)
      else None
  end.

(** The generator from line 47 on, given the outcome [built] of the
    constructor: an error thrown there leaves the generator before the try
    block is entered and before any call is made. *)
Definition runModify_after (built : result regex) (w : world) (e : eventData)
  : result unit * state :=
  match built with
  | Ok rx => runModify_from rx w e init
  | Throw err => (Throw err, init)
  end.

(** A run: the outcome of the generator and its final state.  [None] when
    the outcome of line 47 is not modelled. *)
Definition runModify (w : world) (e : eventData)
  : option (result unit * state) :=
  match new_RegExp (repourl e) with
  | Some built => Some (runModify_after built w e)
  | None => None
  end.

(** The strings and the library functions stay folded when a run is
    simplified. *)
Arguments lit : simpl never.
Arguments production : simpl never.
Arguments defaultBranch : simpl never.
Arguments puppetfileBranchName : simpl never.
Arguments gitdir : simpl never.
Arguments pfile : simpl never.
Arguments new_entry : simpl never.
Arguments ref_template : simpl never.
Arguments make_rundeck_data : simpl never.
Arguments exec : simpl never.
Arguments replace : simpl never.

(** ** Observations on a run *)

Definition is_commit (c : call) : bool :=
  match c with GU_commit _ _ _ => true | _ => false end.
Definition is_push (c : call) : bool :=
  match c with GU_push _ _ => true | _ => false end.
Definition is_writeFile (c : call) : bool :=
  match c with fse_writeFile _ _ => true | _ => false end.
Definition is_checkoutNew (c : call) : bool :=
  match c with GU_checkoutNew _ _ => true | _ => false end.
Definition is_runJob (c : call) : bool :=
  match c with RD_runJob _ => true | _ => false end.
Definition is_cbk (c : call) : bool :=
  match c with cbk _ => true | _ => false end.
Definition is_readFile (c : call) : bool :=
  match c with fse_readFile _ => true | _ => false end.

Definition count (p : call -> bool) (st : state) : nat :=
  length (filter p (calls st)).

Definition performed (p : call -> bool) (st : state) : bool :=
  existsb p (calls st).

Definition succeeded {A} (r : result A) : bool :=
  match r with Ok _ => true | Throw _ => false end.

Definition error_of {A} (r : result A) : option error :=
  match r with Ok _ => None | Throw e => Some e end.

(** The error, if any, that the world answers to a call of the try block. *)
Definition failure_of (w : world) (c : call) : option error :=
  match c with
  | GU_clone _ _ => error_of (clone_ans w)
  | GU_fetch _ => error_of (fetch_ans w)
  | GU_branchExist _ _ => error_of (branchExist_ans w)
  | GU_checkoutExisting _ _ => error_of (checkoutExisting_ans w)
  | GU_checkoutNew _ _ => error_of (checkoutNew_ans w)
  | fse_readFile _ => error_of (readFile_ans w)
  | fse_writeFile _ _ => error_of (writeFile_ans w)
  | GU_commit _ _ _ => error_of (commit_ans w)
  | GU_push _ _ => error_of (push_ans w)
  | RD_runJob _ => error_of (runJob_ans w)
  | fse_remove _ => error_of (remove_ans w)
  | process_chdir _ => error_of (chdir_ans w)
  | cbk _ => error_of (cbk_ans w)
  end.

(** ** Sample events and worlds *)

Definition ntp_url : str := lit "git@git.example.com:puppet/ntp.git".

Definition ntp_event (branchName : str) : eventData :=
  {| pfrepo := lit "git@git.example.com:puppet/puppetfile.git";
     branch := branchName; reponame := lit "ntp"; pushuser := lit "alice";
     repourl := ntp_url; repopath := lit "puppet/ntp" |}.

(** A world in which every collaborator succeeds: the branch exists or not,
    the checkout of an existing branch merged production or not, and the
    Puppetfile holds [content]. *)
Definition calm (default : option str) (branchExist merged : bool)
    (content : str) : world :=
  {| Date_now := 1456789012345; process_cwd := lit "/srv/deployer";
     PUPPETFILE_GIT_DEFAULT_BRANCH := default;
     clone_ans := Ok tt; fetch_ans := Ok tt; branchExist_ans := Ok branchExist;
     checkoutExisting_ans := Ok merged; checkoutNew_ans := Ok tt;
     readFile_ans := Ok content; writeFile_ans := Ok tt; commit_ans := Ok tt;
     push_ans := Ok tt; runJob_ans := Ok (lit "succeeded");
     remove_ans := Ok tt; cbk_ans := Ok tt; chdir_ans := Ok tt;
     catch_remove_ans := Ok tt; catch_cbk_ans := Ok tt |}.

(** A world in which the clone fails and then the removal of the clone
    directory fails too. *)
Definition stormy : world :=
  {| Date_now := 1456789012345; process_cwd := lit "/srv/deployer";
     PUPPETFILE_GIT_DEFAULT_BRANCH := None;
     clone_ans := Throw "clone failed"%string; fetch_ans := Ok tt;
     branchExist_ans := Ok true; checkoutExisting_ans := Ok false;
     checkoutNew_ans := Ok tt; readFile_ans := Ok []; writeFile_ans := Ok tt;
     commit_ans := Ok tt; push_ans := Ok tt;
     runJob_ans := Ok (lit "succeeded"); remove_ans := Ok tt;
     cbk_ans := Ok tt; chdir_ans := Ok tt;
     catch_remove_ans := Throw "EBUSY"%string; catch_cbk_ans := Ok tt |}.

(** The regular expression built for a [repoUrl] of the modelled
    fragment. *)
Definition regex_of (repoUrl : str) : regex :=
  match module_regex repoUrl with
  | Some rx => rx
  | None => {| g1 := Eps; g2 := Eps; g3 := Eps |}
  end.

Definition ntp_regex : regex := regex_of ntp_url.

Definition final_state (w : world) (e : eventData) : option state :=
  option_map snd (runModify w e).

(** The data of the [fse.writeFile] calls of a run, in order. *)
Definition written (st : state) : list str :=
  flat_map (fun c => match c with fse_writeFile _ d => [d] | _ => [] end)
           (calls st).

(** ** What the matcher accepts, and the matches of a whole text *)

(** The words a regular expression matches. *)
Inductive lang : re -> str -> Prop :=
| lang_eps : lang Eps []
| lang_at a c : atom_ok a c = true -> lang (At a) [c]
| lang_seq r1 r2 p1 p2 :
    lang r1 p1 -> lang r2 p2 -> lang (Seq r1 r2) (p1 ++ p2)
| lang_star_stop r : lang (Star r) []
| lang_star_more r p1 p2 :
    lang r p1 -> lang (Star r) p2 -> lang (Star r) (p1 ++ p2).

(** A text that the pattern made of [repoUrl] matches: the same code
    units, except that a dot of [repoUrl] stands for any code unit that is
    not a line terminator. *)
Definition url_unit_ok (p c : cu) : bool :=
  if N.eqb p 46 then negb (line_terminator c) else N.eqb c p.

Definition url_matches (repoUrl u : str) : Prop :=
  Forall2 (fun p c => url_unit_ok p c = true) repoUrl u.

Definition is_quote (c : cu) : bool := mem c [squote; dquote].

(** The successive matches of a global regular expression in a text, each
    with the text skipped since the previous match, and the text left
    after the last match. *)
Fixpoint segments (fuel : nat) (rx : regex) (done s : str)
  : list (str * match_result) * str :=
  match fuel with
  | O => ([], s)
  | S fuel' =>
      match search rx done s with
      | None => ([], s)
      | Some m =>
          let '(segs, tl) :=
            segments fuel' rx (before m ++ whole m) (after m) in
          ((skipn (length done) (before m), m) :: segs, tl)
      end
  end.

Definition entries (rx : regex) (content : str)
  : list (str * match_result) * str :=
  segments (S (length content)) rx [] content.

(** The text made of the skipped parts, of [f m] for every match [m], and
    of the text left. *)
Definition rebuild (f : match_result -> str)
    (x : list (str * match_result) * str) : str :=
  flat_map (fun '(sk, m) => sk ++ f m) (fst x) ++ snd x.

(** No attempt succeeds at a position inside [sk], the text before
    [rest]. *)
Definition no_match_inside (rx : regex) (sk rest : str) : Prop :=
  forall a c b, sk = a ++ c :: b -> match_here rx (c :: b ++ rest) = None.

Definition white (ws : str) : Prop :=
  Forall (fun c => white_space c = true) ws.

(** The shape of a match of [module_regex]: a text matched by the pattern
    of [repoUrl], a quote, a comma, [:ref], [=>] and an opening quote, with
    white space in between; a reference without quotes; a closing quote
    and white space up to the end of a line. *)
Definition entry_shape (repoUrl : str) (m : match_result) : Prop :=
  exists u q1 ws1 ws2 ws3 q2 q3 ws4,
    cap1 m = u ++ q1 :: lit "," ++ ws1 ++ lit ":ref" ++ ws2 ++ lit "=>"
               ++ ws3 ++ [q2]
    /\ url_matches repoUrl u
    /\ is_quote q1 = true /\ is_quote q2 = true /\ is_quote q3 = true
    /\ white ws1 /\ white ws2 /\ white ws3 /\ white ws4
    /\ cap2 m <> [] /\ Forall (fun c => is_quote c = false) (cap2 m)
    /\ cap3 m = q3 :: ws4
    /\ at_eol (after m) = true.

(** No match of the pattern is empty. *)
Definition never_empty (rx : regex) : Prop :=
  forall s c1 c2 c3 s3,
    match_here rx s = Some (c1, c2, c3, s3) -> c1 ++ c2 ++ c3 <> [].

(** A text without the character that introduces a replacement
    pattern. *)
Definition no_dollar (s : str) : bool :=
  forallb (fun c => negb (N.eqb c dollar)) s.

(** A match found by a search and the text the search skipped. *)
Definition found (rx : regex) (content : str) (seg : str * match_result)
  : Prop :=
  let '(sk, m) := seg in
  before m ++ whole m ++ after m = content
  /\ match_here rx (whole m ++ after m)
     = Some (cap1 m, cap2 m, cap3 m, after m)
  /\ no_match_inside rx sk (whole m ++ after m).

(** The text holds a part that the pattern made of [repoUrl] matches. *)
Definition mentions (repoUrl content : str) : Prop :=
  exists a u b, content = a ++ u ++ b /\ url_matches repoUrl u.

(** A text without a dot. *)
Definition no_dot (s : str) : bool :=
  forallb (fun c => negb (N.eqb c 46)) s.

(** The guard of line 105. *)
Definition ref_differs (w : world) (e : eventData) (m : match_result) : bool :=
  negb (str_eqb (cap2 m) (puppetfileBranchName w e))
  && negb (str_eqb (cap2 m) production).

(** A Puppetfile with two entries for [ntp_url]. *)
Definition listed_twice (q : cu) (ref1 ref2 : str) : str :=
  entry q (lit "ntp") ntp_url ref1 ++ newline
  :: entry q (lit "ntp_legacy") ntp_url ref2.

(** Another repository, whose URL ends with the text of a shorter one. *)
Definition legacy_url : str := lit "git@legacy-git.example.com:puppet/ntp.git".
Definition short_url : str := lit "git.example.com:puppet/ntp.git".

Definition short_event (branchName : str) : eventData :=
  {| pfrepo := lit "git@git.example.com:puppet/puppetfile.git";
     branch := branchName; reponame := lit "ntp"; pushuser := lit "alice";
     repourl := short_url; repopath := lit "puppet/ntp" |}.

(** ** Further observations on a run *)

Definition is_checkoutExisting (c : call) : bool :=
  match c with GU_checkoutExisting _ _ => true | _ => false end.

(** The arguments a call of the run of [e] in [w] may carry: the clone
    directory, the Puppetfile in it, the resolved branch name, the initial
    working directory. *)
Definition in_workspace (w : world) (e : eventData) (c : call) : Prop :=
  match c with
  | GU_clone d r => d = gitdir w /\ r = pfrepo e
  | GU_fetch cwd => cwd = gitdir w
  | GU_branchExist n cwd => n = puppetfileBranchName w e /\ cwd = gitdir w
  | GU_checkoutExisting n cwd => n = puppetfileBranchName w e /\ cwd = gitdir w
  | GU_checkoutNew n cwd => n = puppetfileBranchName w e /\ cwd = gitdir w
  | fse_readFile p => p = pfile w
  | fse_writeFile p _ => p = pfile w
  | GU_commit name n cwd =>
      name = reponame e /\ n = puppetfileBranchName w e /\ cwd = gitdir w
  | GU_push n cwd => n = puppetfileBranchName w e /\ cwd = gitdir w
  | RD_runJob data => rd_branch data = puppetfileBranchName w e
  | fse_remove d => d = gitdir w
  | process_chdir d => d = process_cwd w
  | cbk _ => True
  end.

(** The place of a step in the try block. *)
Definition step_rank (c : call) : nat :=
  match c with
  | GU_clone _ _ => 0
  | GU_fetch _ => 1
  | GU_branchExist _ _ => 2
  | GU_checkoutExisting _ _ => 3
  | GU_checkoutNew _ _ => 3
  | fse_readFile _ => 4
  | fse_writeFile _ _ => 5
  | GU_commit _ _ _ => 6
  | GU_push _ _ => 7
  | RD_runJob _ => 8
  | fse_remove _ => 9
  | cbk _ => 10
  | process_chdir _ => 11
  end.

Fixpoint increasing (l : list nat) : bool :=
  match l with
  | a :: ((b :: _) as t) => Nat.ltb a b && increasing t
  | _ => true
  end.

(** ** Texts without quotes, and the parts of an entry *)

Definition quote_free (s : str) : Prop := Forall (fun c => is_quote c = false) s.

(** An entry up to the opening quote of its URL. *)
Definition entry_lead (q : cu) (name : str) : str :=
  lit "mod " ++ q :: name ++ q :: lit "," ++
  newline :: lit "  :git => " ++ [q].

(** What stands in an entry between its URL and its reference. *)
Definition entry_link (q : cu) : str :=
  q :: lit "," ++ newline :: lit "  :ref => " ++ [q].

(** A decision procedure for [mentions]. *)
Fixpoint prefix_matches (repoUrl s : str) : bool :=
  match repoUrl, s with
  | [], _ => true
  | p :: url', c :: s' => url_unit_ok p c && prefix_matches url' s'
  | _ :: _, [] => false
  end.

Fixpoint mentionsb (repoUrl s : str) : bool :=
  prefix_matches repoUrl s
  || match s with
     | [] => false
     | _ :: t => mentionsb repoUrl t
     end.

(** No step before the step of rank [n] has failed: among the calls
    performed, each call of a step of a rank below [n] has an answer of the
    world that is no error. *)
Definition no_failure_before (n : nat) (w : world) (st : state) : bool :=
  forallb
    (fun c =>
       Nat.leb n (step_rank c)
       || match failure_of w c with None => true | Some _ => false end)
    (calls st).

(** A world in which the branch is missing and is created, and then the
    Puppetfile cannot be read. *)
Definition unreadable : world :=
  {| Date_now := 1456789012345; process_cwd := lit "/srv/deployer";
     PUPPETFILE_GIT_DEFAULT_BRANCH := None;
     clone_ans := Ok tt; fetch_ans := Ok tt; branchExist_ans := Ok false;
     checkoutExisting_ans := Ok false; checkoutNew_ans := Ok tt;
     readFile_ans := Throw "ENOENT"%string; writeFile_ans := Ok tt;
     commit_ans := Ok tt; push_ans := Ok tt;
     runJob_ans := Ok (lit "succeeded"); remove_ans := Ok tt;
     cbk_ans := Ok tt; chdir_ans := Ok tt; catch_remove_ans := Ok tt;
     catch_cbk_ans := Ok tt |}.

(** An event whose repository URL holds two quantifiers in a row. *)
Definition cpp_event (branchName : str) : eventData :=
  {| pfrepo := lit "git@git.example.com:puppet/puppetfile.git";
     branch := branchName; reponame := lit "cpp"; pushuser := lit "alice";
     repourl := lit "git@git.example.com:puppet/c++.git";
     repopath := lit "puppet/c++" |}.

(** A world in which every collaborator succeeds and the callback throws
    when it is given null. *)
Definition throwing_callback (content : str) : world :=
  {| Date_now := 1456789012345; process_cwd := lit "/srv/deployer";
     PUPPETFILE_GIT_DEFAULT_BRANCH := None;
     clone_ans := Ok tt; fetch_ans := Ok tt; branchExist_ans := Ok true;
     checkoutExisting_ans := Ok false; checkoutNew_ans := Ok tt;
     readFile_ans := Ok content; writeFile_ans := Ok tt;
     commit_ans := Ok tt; push_ans := Ok tt;
     runJob_ans := Ok (lit "succeeded"); remove_ans := Ok tt;
     cbk_ans := Throw "callback failed"%string; chdir_ans := Ok tt;
     catch_remove_ans := Ok tt; catch_cbk_ans := Ok tt |}.

(** The two cleanup calls of the catch block both succeed. *)
Definition cleanup_ok (w : world) : bool :=
  succeeded (chdir_ans w) && succeeded (catch_remove_ans w).

(** * Properties *)

Lemma str_eqb_eq (a b : str) : str_eqb a b = true <-> a = b.
Proof.
  revert b; induction a as [|x a IH]; intros [|y b]; simpl; split;
    try congruence; try reflexivity.
  - intros H. apply andb_true_iff in H as [Hx Hab].
    apply N.eqb_eq in Hx. apply IH in Hab. congruence.
  - intros [= -> ->]. rewrite N.eqb_refl. simpl. now apply IH.
Qed.

Lemma str_eqb_refl (a : str) : str_eqb a a = true.
Proof. now apply str_eqb_eq. Qed.

Arguments str_eqb : simpl never.

(** ** The matcher *)

Lemma star_ms_sound (step : str -> list (str * str)) (r : re) :
  (forall s p t, In (p, t) (step s) -> lang r p /\ s = p ++ t) ->
  forall fuel s p t,
    In (p, t) (star_ms step fuel s) -> lang (Star r) p /\ s = p ++ t.
Proof.
  intros Hstep. induction fuel as [|fuel IH]; intros s p t; simpl.
  - intros [[= <- <-] | []]. split; [ constructor | reflexivity ].
  - rewrite in_app_iff, in_flat_map. intros [((p1 & s1) & H1 & H2) | H].
    + destruct p1 as [|c p1]; [ contradiction | ].
      apply in_map_iff in H2 as ((p2 & s2) & [= <- <-] & H2).
      apply Hstep in H1 as [L1 ->]. apply IH in H2 as [L2 ->].
      split; [ exact (lang_star_more L1 L2) | ].
      simpl. now rewrite app_assoc.
    + destruct H as [[= <- <-] | []]. split; [ constructor | reflexivity ].
Qed.

Lemma ms_sound (r : re) :
  forall s p t, In (p, t) (ms r s) -> lang r p /\ s = p ++ t.
Proof.
  induction r as [ | a | r1 IH1 r2 IH2 | r IH ]; intros s p t; simpl.
  - intros [[= <- <-] | []]. split; [ constructor | reflexivity ].
  - destruct s as [|c s]; [ contradiction | ].
    destruct (atom_ok a c) eqn:Ha; [ | contradiction ].
    intros [[= <- <-] | []]. split; [ now constructor | reflexivity ].
  - rewrite in_flat_map. intros ((p1 & s1) & H1 & H2).
    apply in_map_iff in H2 as ((p2 & s2) & [= <- <-] & H2).
    apply IH1 in H1 as [L1 ->]. apply IH2 in H2 as [L2 ->].
    split; [ now constructor | now rewrite <- app_assoc ].
  - apply star_ms_sound. exact IH.
Qed.

Lemma hd_error_In {A} (l : list A) (x : A) : hd_error l = Some x -> In x l.
Proof. destruct l; simpl; [ discriminate | intros [= ->]; now left ]. Qed.

Lemma match_here_sound (rx : regex) (s : str) c1 c2 c3 s3 :
  match_here rx s = Some (c1, c2, c3, s3) ->
  lang (g1 rx) c1 /\ lang (g2 rx) c2 /\ lang (g3 rx) c3
  /\ at_eol s3 = true /\ s = c1 ++ c2 ++ c3 ++ s3.
Proof.
  unfold match_here. intros H. apply hd_error_In in H.
  apply in_flat_map in H as ((x1 & s1) & H1 & H).
  apply in_flat_map in H as ((x2 & s2) & H2 & H).
  apply in_flat_map in H as ((x3 & s3') & H3 & H).
  destruct (at_eol s3') eqn:Heol; [ | contradiction ].
  destruct H as [[= <- <- <- <-] | []].
  apply ms_sound in H1 as [L1 ->]. apply ms_sound in H2 as [L2 ->].
  apply ms_sound in H3 as [L3 ->]. auto.
Qed.

Lemma search_sound (rx : regex) :
  forall s done m,
    search rx done s = Some m ->
    exists sk,
      before m = done ++ sk
      /\ s = sk ++ whole m ++ after m
      /\ match_here rx (whole m ++ after m)
         = Some (cap1 m, cap2 m, cap3 m, after m)
      /\ no_match_inside rx sk (whole m ++ after m).
Proof.
  induction s as [|c s IH]; intros done m; simpl.
  - destruct (match_here rx []) as [[[[c1 c2] c3] s3]|] eqn:Hm; [ | discriminate ].
    intros [= <-]. exists []. unfold whole; simpl.
    pose proof (match_here_sound _ _ Hm) as (_ & _ & _ & _ & Hs).
    rewrite app_nil_r. rewrite <- !app_assoc, <- Hs.
    repeat split; auto.
    intros a x b Hab. destruct a; discriminate.
  - destruct (match_here rx (c :: s)) as [[[[c1 c2] c3] s3]|] eqn:Hm.
    + intros [= <-]. exists []. unfold whole; simpl.
      pose proof (match_here_sound _ _ Hm) as (_ & _ & _ & _ & Hs).
      rewrite app_nil_r. rewrite <- !app_assoc, <- Hs.
      repeat split; auto.
      intros a x b Hab. destruct a; discriminate.
    + intros H. apply IH in H as (sk & Hb & Hs & Hh & Hno).
      exists (c :: sk). rewrite Hb, <- app_assoc. simpl.
      repeat split; auto; [ now rewrite <- Hs | ].
      intros a x b Hab. destruct a as [|y a]; simpl in Hab.
      * injection Hab as <- <-. rewrite <- Hs. exact Hm.
      * injection Hab as <- Hab. eapply Hno; eauto.
Qed.

Lemma search_none_any_done (rx : regex) :
  forall s done done', search rx done s = None -> search rx done' s = None.
Proof.
  induction s as [|c s IH]; intros done done'; simpl;
    destruct (match_here rx _) as [[[[c1 c2] c3] s3]|]; try discriminate; eauto.
Qed.

Lemma lang_eps_inv p : lang Eps p -> p = [].
Proof. now inversion 1. Qed.

Lemma lang_at_inv a p : lang (At a) p -> exists c, p = [c] /\ atom_ok a c = true.
Proof. inversion 1; subst; eauto. Qed.

Lemma lang_seq_inv r1 r2 p :
  lang (Seq r1 r2) p -> exists p1 p2, p = p1 ++ p2 /\ lang r1 p1 /\ lang r2 p2.
Proof. inversion 1; subst; eauto. Qed.

Lemma lang_chars l : forall p, lang (chars l) p -> p = l.
Proof.
  induction l as [|c l IH]; simpl; intros p H.
  - now apply lang_eps_inv.
  - apply lang_seq_inv in H as (p1 & p2 & -> & H1 & H2).
    apply lang_at_inv in H1 as (x & -> & Hx). simpl in Hx.
    apply N.eqb_eq in Hx. subst. simpl. f_equal. auto.
Qed.

Lemma lang_star_atom a p :
  lang (Star (At a)) p -> Forall (fun c => atom_ok a c = true) p.
Proof.
  intros H. remember (Star (At a)) as r eqn:Hr.
  induction H; try discriminate.
  - constructor.
  - injection Hr as ->. apply lang_at_inv in H as (c & -> & Hc).
    simpl. constructor; auto.
Qed.

Lemma lang_url : forall url r u,
  url_re url = Some r -> lang r u -> url_matches url u.
Proof.
  induction url as [|c url IH]; simpl; intros r u Hr Hu.
  - injection Hr as <-. apply lang_eps_inv in Hu. subst. constructor.
  - destruct (syntax_character c); [ discriminate | ].
    destruct (url_re url) as [r'|] eqn:Hr'; [ | discriminate ].
    injection Hr as <-.
    apply lang_seq_inv in Hu as (p1 & p2 & -> & H1 & H2).
    apply lang_at_inv in H1 as (x & -> & Hx). simpl.
    constructor; [ | now apply (IH r') ].
    unfold url_unit_ok. destruct (N.eqb c 46); exact Hx.
Qed.

Lemma module_regex_shape url rx s c1 c2 c3 s3 b :
  module_regex url = Some rx ->
  match_here rx s = Some (c1, c2, c3, s3) ->
  entry_shape url
    {| before := b; cap1 := c1; cap2 := c2; cap3 := c3; after := s3 |}.
Proof.
  unfold module_regex. destruct (url_re url) as [ur|] eqn:Hu; [ | discriminate ].
  intros [= <-] H. apply match_here_sound in H as (L1 & L2 & L3 & Heol & _).
  simpl in L1, L2, L3.
  apply lang_seq_inv in L1 as (u & p & -> & Lu & L1).
  apply lang_seq_inv in L1 as (pq1 & p1 & -> & Lq1 & L1).
  apply lang_at_inv in Lq1 as (q1 & -> & Hq1).
  apply lang_seq_inv in L1 as (pc & p2 & -> & Lc & L1).
  apply (@lang_chars (lit ",")) in Lc as ->.
  apply lang_seq_inv in L1 as (ws1 & p3 & -> & Lw1 & L1).
  apply lang_star_atom in Lw1.
  apply lang_seq_inv in L1 as (pr & p4 & -> & Lr & L1).
  apply (@lang_chars (lit ":ref")) in Lr as ->.
  apply lang_seq_inv in L1 as (ws2 & p5 & -> & Lw2 & L1).
  apply lang_star_atom in Lw2.
  apply lang_seq_inv in L1 as (pa & p6 & -> & La & L1).
  apply (@lang_chars (lit "=>")) in La as ->.
  apply lang_seq_inv in L1 as (ws3 & p7 & -> & Lw3 & L1).
  apply lang_star_atom in Lw3.
  apply lang_at_inv in L1 as (q2 & -> & Hq2).
  apply lang_seq_inv in L2 as (pn & pns & -> & Ln & Lns).
  apply lang_at_inv in Ln as (n & -> & Hn).
  apply lang_star_atom in Lns.
  apply lang_seq_inv in L3 as (pq3 & ws4 & -> & Lq3 & Lw4).
  apply lang_at_inv in Lq3 as (q3 & -> & Hq3).
  apply lang_star_atom in Lw4.
  exists u, q1, ws1, ws2, ws3, q2, q3, ws4. simpl.
  repeat split; auto.
  - eapply lang_url; eauto.
  - discriminate.
  - constructor.
    + simpl in Hn. unfold is_quote. now apply negb_true_iff.
    + eapply Forall_impl; [ | exact Lns ]. simpl. intros c Hc.
      unfold is_quote. now apply negb_true_iff.
Qed.

Lemma module_regex_never_empty url rx :
  module_regex url = Some rx -> never_empty rx.
Proof.
  intros Hrx s c1 c2 c3 s3 H.
  destruct (@module_regex_shape url rx s c1 c2 c3 s3 [] Hrx H) as (u & q1 & ws1 & ws2 & ws3 & q2 & q3 & ws4 & _ & _ & _ & _ & _ & _ & _ & _ & _ & _ & _ & H3 & _).
  simpl in H3. subst c3. intros E.
  apply app_eq_nil in E as [_ E]. apply app_eq_nil in E as [_ E]. discriminate.
Qed.

Lemma skipn_length_app {A} (l1 l2 : list A) : skipn (length l1) (l1 ++ l2) = l2.
Proof. induction l1; simpl; auto. Qed.

Lemma search_whole_nonempty (rx : regex) done s m :
  never_empty rx -> search rx done s = Some m -> whole m <> [].
Proof.
  intros Hne H. apply search_sound in H as (sk & _ & _ & H & _).
  apply Hne in H. exact H.
Qed.

Lemma search_shorter (rx : regex) done s m :
  never_empty rx -> search rx done s = Some m -> length (after m) < length s.
Proof.
  intros Hne H. pose proof (search_whole_nonempty _ _ Hne H) as Hw.
  apply search_sound in H as (sk & _ & -> & _ & _).
  rewrite !length_app. destruct (whole m); [ congruence | simpl; lia ].
Qed.

Lemma rebuild_cons f sk m segs tl :
  rebuild f ((sk, m) :: segs, tl) = sk ++ f m ++ rebuild f (segs, tl).
Proof. unfold rebuild. simpl. now rewrite <- !app_assoc. Qed.

Lemma segments_rebuild_whole (rx : regex) :
  forall fuel done s, rebuild whole (segments fuel rx done s) = s.
Proof.
  induction fuel as [|fuel IH]; intros done s; simpl; [ reflexivity | ].
  destruct (search rx done s) as [m|] eqn:Hs; [ | reflexivity ].
  specialize (IH (before m ++ whole m) (after m)).
  destruct (segments fuel rx (before m ++ whole m) (after m)) as [segs tl].
  rewrite rebuild_cons, IH.
  apply search_sound in Hs as (sk & -> & -> & _).
  now rewrite skipn_length_app.
Qed.

Lemma replace_from_rebuild (rx : regex) (tpl : str) :
  never_empty rx ->
  forall fuel done s,
    replace_from fuel rx tpl done s
    = rebuild (fun m => expand m tpl) (segments fuel rx done s).
Proof.
  intros Hne. induction fuel as [|fuel IH]; intros done s; simpl;
    [ reflexivity | ].
  destruct (search rx done s) as [m|] eqn:Hs; [ | reflexivity ].
  pose proof (search_whole_nonempty _ _ Hne Hs) as Hw.
  specialize (IH (before m ++ whole m) (after m)).
  destruct (segments fuel rx (before m ++ whole m) (after m)) as [segs tl].
  rewrite rebuild_cons, <- IH.
  destruct (whole m); [ congruence | reflexivity ].
Qed.

Lemma segments_found (rx : regex) :
  forall fuel done s,
    Forall (found rx (done ++ s)) (fst (segments fuel rx done s)).
Proof.
  induction fuel as [|fuel IH]; intros done s; simpl; [ constructor | ].
  destruct (search rx done s) as [m|] eqn:Hs; [ | constructor ].
  specialize (IH (before m ++ whole m) (after m)).
  destruct (segments fuel rx (before m ++ whole m) (after m)) as [segs tl].
  apply search_sound in Hs as (sk & Hb & -> & Hm & Hno).
  simpl in *. rewrite Hb in *. rewrite skipn_length_app.
  rewrite <- !app_assoc in *.
  constructor; [ | exact IH ].
  repeat split; auto.
  now rewrite Hb, <- app_assoc.
Qed.

Lemma segments_exhaustive (rx : regex) :
  never_empty rx ->
  forall fuel done s,
    length s < fuel ->
    exec rx (snd (segments fuel rx done s)) = None.
Proof.
  intros Hne. induction fuel as [|fuel IH]; intros done s Hlen; [ lia | ].
  simpl. destruct (search rx done s) as [m|] eqn:Hs.
  - pose proof (search_shorter _ _ Hne Hs) as Hshort.
    specialize (IH (before m ++ whole m) (after m)).
    destruct (segments fuel rx (before m ++ whole m) (after m)) as [segs tl].
    simpl in *. apply IH. lia.
  - simpl. unfold exec. eapply search_none_any_done; eauto.
Qed.

Lemma entries_first (rx : regex) (content : str) m :
  exec rx content = Some m ->
  exists rest, fst (entries rx content) = (before m, m) :: rest.
Proof.
  unfold exec, entries. simpl. intros ->.
  destruct (segments _ rx _ _) as [segs tl]. simpl. eauto.
Qed.

Lemma entries_none (rx : regex) (content : str) :
  exec rx content = None -> entries rx content = ([], content).
Proof. unfold exec, entries. simpl. now intros ->. Qed.

(** The replacement template without a dollar in the branch name. *)
Lemma expand_plain (m : match_result) (b t : str) :
  no_dollar b = true -> expand m (b ++ t) = b ++ expand m t.
Proof.
  induction b as [|c b IH]; simpl; [ reflexivity | ].
  intros H. apply andb_true_iff in H as [Hc Hb].
  rewrite Hc. f_equal. auto.
Qed.

Lemma expand_dollar1 (m : match_result) (t : str) :
  expand m (36 :: 49 :: t)%N = cap1 m ++ expand m t.
Proof.
  destruct t as [|d2 t3]; [ reflexivity | ].
  set (X := expand m (d2 :: t3)).
  assert (E : expand m (36 :: 49 :: d2 :: t3)%N
              = if is_digit d2
                then if N.leb (10 * 1 + digit_val d2) 3
                     then if N.leb 1 (10 * 1 + digit_val d2)
                          then capture m (10 * 1 + digit_val d2) ++ expand m t3
                          else (36 :: 49 :: d2 :: expand m t3)%N
                     else cap1 m ++ X
                else cap1 m ++ X) by reflexivity.
  rewrite E. destruct (is_digit d2); [ | reflexivity ].
  assert (Hnn : N.leb (10 * 1 + digit_val d2) 3 = false)
    by (apply N.leb_gt; lia).
  now rewrite Hnn.
Qed.

Lemma expand_dollar3 (m : match_result) :
  expand m [36; 51]%N = cap3 m.
Proof. simpl. unfold capture. simpl. apply app_nil_r. Qed.

Lemma expand_ref_template (m : match_result) (e : eventData) :
  no_dollar (branch e) = true ->
  expand m (ref_template e) = cap1 m ++ branch e ++ cap3 m.
Proof.
  intros Hb. unfold ref_template.
  change (lit "$1") with [36; 49]%N. change (lit "$3") with [36; 51]%N.
  cbn [app]. now rewrite expand_dollar1, expand_plain, expand_dollar3.
Qed.

Lemma url_matches_plain : forall url u,
  no_dot url = true -> url_matches url u -> u = url.
Proof.
  intros url u Hd H. induction H as [|p c url u Hpc H IH]; [ reflexivity | ].
  simpl in Hd. apply andb_true_iff in Hd as [Hp Hd].
  unfold url_unit_ok in Hpc. apply negb_true_iff in Hp. rewrite Hp in Hpc.
  apply N.eqb_eq in Hpc. subst. f_equal. auto.
Qed.

Lemma unmentioned_no_match (url : str) (rx : regex) (content : str) :
  module_regex url = Some rx ->
  ~ mentions url content ->
  exec rx content = None.
Proof.
  intros Hrx Hno. destruct (exec rx content) as [m|] eqn:Hm; [ | reflexivity ].
  exfalso. apply Hno. unfold exec in Hm.
  apply search_sound in Hm as (sk & _ & Hc & Hh & _).
  destruct (@module_regex_shape url rx _ _ _ _ _ (before m) Hrx Hh)
    as (u & q1 & ws1 & ws2 & ws3 & q2 & q3 & ws4 & H1 & Hu & _).
  simpl in H1. exists sk, u, (skipn (length u) (whole m) ++ after m).
  split; [ | exact Hu ].
  rewrite Hc. unfold whole. rewrite H1.
  rewrite <- !app_assoc. rewrite skipn_length_app. now rewrite <- !app_assoc.
Qed.

(** The matcher at work.  The white space after the closing quote is
    matched greedily and given back up to the end of the line; the
    reference may not hold a quote; a match needs the end of a line right
    after the white space. *)
Example exec_gives_back_white_space :
  exec ntp_regex
       (lit "  :git => 'git@git.example.com:puppet/ntp.git', :ref => 'v1'  "
        ++ newline :: newline :: lit "mod 'x'")
  = Some {| before := lit "  :git => '";
            cap1 := lit "git@git.example.com:puppet/ntp.git', :ref => '";
            cap2 := lit "v1";
            cap3 := lit "'  " ++ [newline];
            after := newline :: lit "mod 'x'" |}.
Proof. vm_compute. reflexivity. Qed.

Example exec_needs_the_end_of_the_line :
  exec ntp_regex
       (lit "  :git => 'git@git.example.com:puppet/ntp.git', :ref => 'v1', :x")
  = None.
Proof. vm_compute. reflexivity. Qed.

Example exec_dot_is_a_wildcard :
  option_map cap2
    (exec ntp_regex
          (lit "  :git => 'git@git-example-com:puppet/ntp git', :ref => 'v1'"))
  = Some (lit "v1").
Proof. vm_compute. reflexivity. Qed.

(** A digit after [$1] is a literal digit, since there are three captures
    only; [$$] is a dollar and [$&] the whole match. *)
Example expand_patterns (m : match_result) :
  expand m (lit "$12.0$3") = cap1 m ++ lit "2.0" ++ cap3 m
  /\ expand m (lit "a$$b") = lit "a$b"
  /\ expand m (lit "$&") = whole m
  /\ expand m (lit "$0$4") = lit "$0$4".
Proof.
  unfold lit, whole; simpl; unfold capture; simpl.
  rewrite !app_nil_r. repeat split.
Qed.

(** ** Reasoning on the monad: weakest preconditions *)

Definition wp {A} (m : M A) (Q : result A -> state -> Prop) (st : state)
  : Prop :=
  Q (fst (m st)) (snd (m st)).

Definition log (c : call) (st : state) : state :=
  {| calls := calls st ++ [c];
     fullDeploymentNeeded := fullDeploymentNeeded st;
     commitNeeded := commitNeeded st |}.

Definition continue {A B} (k : A -> M B) (Q : result B -> state -> Prop)
    (r : result A) (st : state) : Prop :=
  match r with
  | Ok a => wp (k a) Q st
  | Throw e => Q (Throw e) st
  end.

Lemma wp_bind {A B} (m : M A) (k : A -> M B) Q st :
  wp m (continue k Q) st -> wp (bind m k) Q st.
Proof.
  unfold wp, continue, bind. destruct (m st) as [[a|e] st']; simpl; auto.
Qed.

Lemma wp_yield {A} (c : call) (ans : result A) Q st :
  Q ans (log c st) -> wp (yield c ans) Q st.
Proof. unfold wp, yield, log. simpl. auto. Qed.

Lemma wp_ret {A} (a : A) Q st : Q (Ok a) st -> wp (ret a) Q st.
Proof. unfold wp, ret. simpl. auto. Qed.

Lemma wp_set_commitNeeded b Q st :
  Q (Ok tt) {| calls := calls st;
               fullDeploymentNeeded := fullDeploymentNeeded st;
               commitNeeded := b |} ->
  wp (set_commitNeeded b) Q st.
Proof. unfold wp, set_commitNeeded. simpl. auto. Qed.

Lemma wp_set_fullDeploymentNeeded b Q st :
  Q (Ok tt) {| calls := calls st; fullDeploymentNeeded := b;
               commitNeeded := commitNeeded st |} ->
  wp (set_fullDeploymentNeeded b) Q st.
Proof. unfold wp, set_fullDeploymentNeeded. simpl. auto. Qed.

Lemma wp_get_commitNeeded Q st :
  Q (Ok (commitNeeded st)) st -> wp get_commitNeeded Q st.
Proof. unfold wp, get_commitNeeded. simpl. auto. Qed.

Lemma wp_get_fullDeploymentNeeded Q st :
  Q (Ok (fullDeploymentNeeded st)) st -> wp get_fullDeploymentNeeded Q st.
Proof. unfold wp, get_fullDeploymentNeeded. simpl. auto. Qed.

Lemma wp_try_catch {A} (body : M A) handler Q st :
  wp body (fun r st' =>
             match r with
             | Ok a => Q (Ok a) st'
             | Throw e => wp (handler e) Q st'
             end) st ->
  wp (try_catch body handler) Q st.
Proof.
  unfold wp, try_catch. destruct (body st) as [[a|e] st']; simpl; auto.
Qed.

Lemma wp_run {A} (m : M A) (P : result A -> state -> Prop) st :
  wp m P st -> P (fst (m st)) (snd (m st)).
Proof. exact (fun H => H). Qed.

Arguments wp : simpl never.

(** One step of symbolic execution of a run; a suspending call splits on
    the answer of the world. *)
Ltac wp_step :=
  lazymatch goal with
  | |- wp (bind _ _) _ _ => apply wp_bind
  | |- wp (yield _ _) _ _ => apply wp_yield
  | |- wp (ret _) _ _ => apply wp_ret
  | |- wp (set_commitNeeded _) _ _ => apply wp_set_commitNeeded
  | |- wp (set_fullDeploymentNeeded _) _ _ =>
      apply wp_set_fullDeploymentNeeded
  | |- wp get_commitNeeded _ _ => apply wp_get_commitNeeded
  | |- wp get_fullDeploymentNeeded _ _ => apply wp_get_fullDeploymentNeeded
  | |- wp (try_catch _ _) _ _ => apply wp_try_catch
  | |- wp (if ?b then _ else _) _ _ =>
      first [ match goal with H : b = _ |- _ => rewrite H end
            | let E := fresh "Eb" in destruct b eqn:E ]
  | |- wp (match exec ?rx ?c with _ => _ end) _ _ =>
      first [ match goal with H : exec rx c = _ |- _ => rewrite H end
            | let E := fresh "Em" in destruct (exec rx c) eqn:E ]
  | |- wp (runModify_from _ _ _) _ _ => unfold runModify_from
  | |- wp (try_block _ _ _) _ _ => unfold try_block
  | |- wp (catch_block _ _) _ _ => unfold catch_block
  | |- wp (checkout_branch _ _ _) _ _ => unfold checkout_branch
  | |- wp (update_puppetfile _ _ _ _) _ _ => unfold update_puppetfile
  | |- wp (commit_and_push _ _) _ _ => unfold commit_and_push
  | |- wp (deploy _ _) _ _ => unfold deploy
  | |- wp (when _ _) _ _ => unfold when
  | |- continue _ _ ?r _ =>
      lazymatch r with
      | Ok _ => unfold continue at 1
      | Throw _ => unfold continue at 1
      | _ => first [ match goal with H : r = _ |- _ => rewrite H end
                   | let E := fresh "E" in destruct r eqn:E ]
      end
  | |- match ?r with Ok _ => _ | Throw _ => _ end =>
      lazymatch r with
      | Ok _ => cbv beta iota
      | Throw _ => cbv beta iota
      | _ => first [ match goal with H : r = _ |- _ => rewrite H end
                   | let E := fresh "E" in destruct r eqn:E ]
      end
  end; cbn [commitNeeded fullDeploymentNeeded calls log init].

Ltac wp_run := repeat wp_step.

(** The gate of lines 127-141 on its own, from any state: the flags are
    left as they are, a commit is called when [commitNeeded], and a push is
    called when [commitNeeded] or [fullDeploymentNeeded], unless the commit
    has just failed. *)
Lemma commit_and_push_calls (w : world) (e : eventData) (st0 : state) :
  let st1 := snd (commit_and_push w e st0) in
  commitNeeded st1 = commitNeeded st0
  /\ fullDeploymentNeeded st1 = fullDeploymentNeeded st0
  /\ calls st1
     = calls st0
       ++ (if commitNeeded st0
           then [GU_commit (reponame e) (puppetfileBranchName w e) (gitdir w)]
           else [])
       ++ (if (commitNeeded st0 || fullDeploymentNeeded st0)
              && (negb (commitNeeded st0) || succeeded (commit_ans w))
           then [GU_push (puppetfileBranchName w e) (gitdir w)]
           else []).
Proof.
  destruct st0 as [l f c].
  unfold commit_and_push, when, bind, get_commitNeeded,
    get_fullDeploymentNeeded, yield, ret. simpl.
  destruct c; simpl.
  - destruct (commit_ans w); simpl; repeat split;
      now rewrite <- ?app_assoc, ?app_nil_r.
  - destruct f; simpl; repeat split; now rewrite ?app_nil_r.
Qed.

(** C1, as stated, fails: the branch is missing and is created, so both
    flags are true, and then the Puppetfile cannot be read; the run is
    aborted and no push is performed. *)
Lemma aborted_run_does_not_push :
  exists st,
    final_state unreadable (ntp_event (lit "feature-x")) = Some st
    /\ commitNeeded st = true
    /\ fullDeploymentNeeded st = true
    /\ performed is_push st = false.
Proof. eexists. split; [ vm_compute; reflexivity | repeat split ]. Qed.

(** C1, amended: in every run, whatever the constructor of line 47 builds
    or throws, the commit and the push are each performed at most once; the
    commit is performed exactly when [commitNeeded] is true and no step
    before the commit has failed; the push is performed exactly when
    [commitNeeded] or [fullDeploymentNeeded] is true and no step before the
    push has failed. *)
Theorem push_iff_needed_and_not_aborted :
  forall (built : result regex) (w : world) (e : eventData),
    let st := snd (runModify_after built w e) in
    count is_commit st <= 1
    /\ count is_push st <= 1
    /\ performed is_commit st
       = commitNeeded st && no_failure_before 6 w st
    /\ performed is_push st
       = (commitNeeded st || fullDeploymentNeeded st)
         && no_failure_before 7 w st.
Proof.
  intros [rx|err] w e st; subst st; cbn [runModify_after];
    [ | cbn; repeat split; lia ].
  apply (wp_run (runModify_from rx w e)
           (fun _ st =>
              count is_commit st <= 1
              /\ count is_push st <= 1
              /\ performed is_commit st
                 = commitNeeded st && no_failure_before 6 w st
              /\ performed is_push st
                 = (commitNeeded st || fullDeploymentNeeded st)
                   && no_failure_before 7 w st)).
  wp_run; unfold count, performed, no_failure_before; simpl;
    repeat match goal with
           | H : _ = Ok _ |- _ => rewrite H
           | H : _ = Throw _ |- _ => rewrite H
           end;
    simpl; repeat split; auto;
    repeat match goal with H : _ || _ = _ |- _ => simpl in H end;
    subst; rewrite ?andb_false_r, ?andb_true_r; auto.
Qed.

(** ** The flags and the manifest *)

(** C2, as stated, fails: the branch is missing on the remote and the
    Puppetfile already points the module at the branch; [commitNeeded] is
    true although no write of the Puppetfile is performed. *)
Lemma commitNeeded_without_manifest_write :
  exists st,
    final_state
      (calm None false false
         (entry squote (lit "ntp") ntp_url (lit "feature-x")))
      (ntp_event (lit "feature-x")) = Some st
    /\ commitNeeded st = true
    /\ performed is_writeFile st = false.
Proof. eexists. split; [ vm_compute; reflexivity | split; reflexivity ]. Qed.

(** C2, amended: [commitNeeded] is true at the end of a run exactly when
    the run created the branch (the call to checkoutNew was performed and
    succeeded) or rewrote the Puppetfile (a call to writeFile was performed
    and succeeded). *)
Theorem commitNeeded_iff_new_branch_or_manifest_write :
  forall (rx : regex) (w : world) (e : eventData),
    let st := snd (runModify_from rx w e init) in
    commitNeeded st = true <->
    (performed is_checkoutNew st = true /\ checkoutNew_ans w = Ok tt)
    \/ (performed is_writeFile st = true /\ writeFile_ans w = Ok tt).
Proof.
  intros rx w e st. subst st.
  apply (wp_run (runModify_from rx w e)
           (fun _ st =>
              commitNeeded st = true <->
              (performed is_checkoutNew st = true /\ checkoutNew_ans w = Ok tt)
              \/ (performed is_writeFile st = true
                  /\ writeFile_ans w = Ok tt))).
  wp_run; unfold performed; simpl;
    repeat match goal with u : unit |- _ => destruct u end;
    intuition congruence.
Qed.




Lemma steady_guard (m : match_result) (target : str) :
  cap2 m = target \/ cap2 m = production ->
  negb (str_eqb (cap2 m) target) && negb (str_eqb (cap2 m) production) = false.
Proof.
  intros [H | H]; rewrite H, str_eqb_refl; simpl; auto using andb_false_r.
Qed.

Lemma runModify_built (w : world) (e : eventData) rx :
  module_regex (repourl e) = Some rx ->
  runModify w e = Some (runModify_from rx w e init).
Proof. unfold runModify, new_RegExp. now intros ->. Qed.

Lemma steady_state_from (rx : regex) (w : world) (e : eventData) content m :
  readFile_ans w = Ok content ->
  exec rx content = Some m ->
  cap2 m = puppetfileBranchName w e \/ cap2 m = production ->
  let st := snd (runModify_from rx w e init) in
  written st = []
  /\ (branchExist_ans w = Ok true ->
      commitNeeded st = false /\ performed is_commit st = false).
Proof.
  intros Hread Hexec Href st. subst st.
  apply steady_guard in Href.
  apply (wp_run (runModify_from rx w e)
    (fun _ st =>
       written st = []
       /\ (branchExist_ans w = Ok true ->
           commitNeeded st = false /\ performed is_commit st = false))).
  wp_run; unfold performed, written; simpl; split; auto; intros; try discriminate.
Qed.

(** C6: when the reference of the first matching entry of the Puppetfile
    is the resolved target branch name or is production, the run writes
    nothing to the Puppetfile, and if the branch already existed
    [commitNeeded] is false at the end of the run and no commit is
    performed. *)
Theorem steady_state_leaves_manifest_untouched :
  forall (w : world) (e : eventData) rx content m r st,
    module_regex (repourl e) = Some rx ->
    readFile_ans w = Ok content ->
    exec rx content = Some m ->
    cap2 m = puppetfileBranchName w e \/ cap2 m = production ->
    runModify w e = Some (r, st) ->
    written st = []
    /\ performed is_writeFile st = false
    /\ (branchExist_ans w = Ok true ->
        commitNeeded st = false /\ performed is_commit st = false).
Proof.
  intros w e rx content m r st Hrx Hread Hexec Href Hrun.
  rewrite (@runModify_built w e rx Hrx) in Hrun. injection Hrun as Hrun.
  pose proof (@steady_state_from rx w e content m Hread Hexec Href) as H.
  rewrite Hrun in H. simpl in H. destruct H as [Hw Hc].
  repeat split; try apply Hc; auto.
  unfold written in Hw. unfold performed.
  induction (calls st) as [|c l IH]; simpl in *; auto.
  destruct c; simpl in *; auto; discriminate.
Qed.

(** The witness of C6: the branch exists, nothing was merged, and the
    entry of the module already refers to feature-x. *)
Lemma steady_state_leaves_manifest_untouched_witness :
  let content := entry squote (lit "ntp") ntp_url (lit "feature-x") in
  let w := calm None true false content in
  let e := ntp_event (lit "feature-x") in
  exists m st,
    exec ntp_regex content = Some m
    /\ cap2 m = lit "feature-x"
    /\ final_state w e = Some st
    /\ written st = []
    /\ commitNeeded st = false
    /\ performed is_commit st = false.
Proof.
  intros content w e.
  eexists. eexists.
  assert (Hexec : exec ntp_regex content =
                  Some {| before := lit "mod 'ntp'," ++ newline :: lit "  :git => '";
                          cap1 := ntp_url ++ lit "'," ++ newline :: lit "  :ref => '";
                          cap2 := lit "feature-x";
                          cap3 := squote :: [newline];
                          after := [] |})
    by (vm_compute; reflexivity).
  assert (Hrun : runModify w e =
                 Some (Ok tt, snd (runModify_from ntp_regex w e init)))
    by (vm_compute; reflexivity).
  pose proof (@steady_state_leaves_manifest_untouched w e ntp_regex content
                _ _ _ eq_refl eq_refl Hexec (or_introl eq_refl) Hrun)
    as (Hw & _ & Hc).
  destruct (Hc eq_refl) as [Hc1 Hc2].
  refine (conj Hexec (conj eq_refl (conj _ (conj Hw (conj Hc1 Hc2))))).
  unfold final_state. rewrite Hrun. reflexivity.
Defined.

(** ** Cleanup and the report to the caller *)

(** C9, as stated, fails: the clone fails, then the removal of the
    directory in the catch block fails; the error of the removal leaves the
    generator in place of the error of the clone, and the callback is never
    called. *)
Lemma cleanup_failure_masks_the_original_error :
  exists st,
    runModify stormy (ntp_event (lit "feature-x"))
    = Some (Throw "EBUSY"%string, st)
    /\ error_of (clone_ans stormy) = Some "clone failed"%string
    /\ count is_cbk st = 0.
Proof. eexists. split; [ vm_compute; reflexivity | split; reflexivity ]. Qed.

Ltac all_before l n :=
  let k := eval compute in (length l - n) in
  let pre := eval cbv [firstn] in (firstn k l) in
  pre.

Ltac answers :=
  simpl;
  repeat match goal with
         | H : _ = Ok _ |- _ => rewrite H
         | H : _ = Throw _ |- _ => rewrite H
         end;
  simpl; try reflexivity.

Ltac reported_ok :=
  left;
  match goal with
  | |- exists pre, ?l = _ /\ _ =>
      let pre := all_before l 2 in
      exists pre; split; [ reflexivity | repeat constructor; answers ]
  end.

Ltac reported_error :=
  right;
  match goal with
  | |- exists pre c err, ?l = _ /\ _ =>
      let pre := all_before l 4 in
      match l with
      | context [ [?c; process_chdir _; fse_remove _; cbk (Some ?err)] ] =>
          exists pre, c, err;
          split; [ reflexivity
                 | split; [ answers | repeat constructor; answers ] ]
      end
  end.

(** C9, amended: in every run in which the constructor of line 47 builds
    the regular expression, the callback does not throw, and the cleanup of
    the catch block (the change of directory and the removal of the clone
    directory) does not itself fail, the generator returns normally and the
    callback is called exactly once, as the last call of the run and right
    after the removal of the clone directory.  Either every call of the try
    block succeeded and the callback receives null; or one call [c] failed
    with [err], every call before it having succeeded, and what follows [c]
    is the return to the initial working directory, the removal of the
    clone directory and the callback with that same [err]. *)
Theorem cleanup_then_single_report :
  forall (rx : regex) (w : world) (e : eventData),
    cbk_ans w = Ok tt ->
    catch_cbk_ans w = Ok tt ->
    chdir_ans w = Ok tt ->
    catch_remove_ans w = Ok tt ->
    let r := fst (runModify_after (Ok rx) w e) in
    let st := snd (runModify_after (Ok rx) w e) in
    r = Ok tt
    /\ count is_cbk st = 1
    /\ ((exists pre,
           calls st = pre ++ [fse_remove (gitdir w); cbk None]
           /\ Forall (fun c => failure_of w c = None)
                     (pre ++ [fse_remove (gitdir w)]))
        \/ (exists pre c err,
              calls st = pre ++ [c; process_chdir (process_cwd w);
                                 fse_remove (gitdir w); cbk (Some err)]
              /\ failure_of w c = Some err
              /\ Forall (fun c' => failure_of w c' = None) pre)).
Proof.
  intros rx w e Hcbk Hcbk' Hchdir Hremove r st. subst r st.
  cbn [runModify_after].
  apply (wp_run (runModify_from rx w e)
    (fun r st =>
       r = Ok tt
       /\ count is_cbk st = 1
       /\ ((exists pre,
              calls st = pre ++ [fse_remove (gitdir w); cbk None]
              /\ Forall (fun c => failure_of w c = None)
                        (pre ++ [fse_remove (gitdir w)]))
           \/ (exists pre c err,
                 calls st = pre ++ [c; process_chdir (process_cwd w);
                                    fse_remove (gitdir w); cbk (Some err)]
                 /\ failure_of w c = Some err
                 /\ Forall (fun c' => failure_of w c' = None) pre)))).
  wp_run;
    repeat match goal with u : unit |- _ => destruct u end;
    (split; [ first [ reflexivity | assumption ]
            | split; [ reflexivity | ] ]);
    simpl; first [ reported_ok | reported_error ].
Qed.

(** The witness of C9: the push fails in a world whose cleanup works. *)
Lemma cleanup_then_single_report_witness :
  let w :=
    {| Date_now := 1456789012345; process_cwd := lit "/srv/deployer";
       PUPPETFILE_GIT_DEFAULT_BRANCH := None;
       clone_ans := Ok tt; fetch_ans := Ok tt; branchExist_ans := Ok true;
       checkoutExisting_ans := Ok true; checkoutNew_ans := Ok tt;
       readFile_ans := Ok (entry squote (lit "ntp") ntp_url (lit "feature-x"));
       writeFile_ans := Ok tt; commit_ans := Ok tt;
       push_ans := Throw "rejected"%string;
       runJob_ans := Ok (lit "succeeded"); remove_ans := Ok tt;
       cbk_ans := Ok tt; chdir_ans := Ok tt; catch_remove_ans := Ok tt;
       catch_cbk_ans := Ok tt |} in
  let e := ntp_event (lit "feature-x") in
  fst (runModify_after (Ok ntp_regex) w e) = Ok tt
  /\ count is_cbk (snd (runModify_after (Ok ntp_regex) w e)) = 1
  /\ last (calls (snd (runModify_after (Ok ntp_regex) w e))) (cbk None)
     = cbk (Some "rejected"%string).
Proof.
  intros w e.
  destruct (@cleanup_then_single_report ntp_regex w e eq_refl eq_refl
              eq_refl eq_refl)
    as (Hr & Hcount & _).
  refine (conj Hr (conj Hcount _)).
  vm_compute. reflexivity.
Defined.

(** ** The update of the Puppetfile *)

Lemma ref_differs_true (w : world) (e : eventData) (m : match_result) :
  cap2 m <> puppetfileBranchName w e ->
  cap2 m <> production ->
  ref_differs w e m = true.
Proof.
  intros H1 H2. unfold ref_differs.
  destruct (str_eqb (cap2 m) (puppetfileBranchName w e)) eqn:E1;
    [ apply str_eqb_eq in E1; contradiction | ].
  destruct (str_eqb (cap2 m) production) eqn:E2;
    [ apply str_eqb_eq in E2; contradiction | ].
  reflexivity.
Qed.

(** What a run that has read the Puppetfile writes to it. *)
Lemma run_update (rx : regex) (w : world) (e : eventData) (content : str) :
  readFile_ans w = Ok content ->
  let st := snd (runModify_from rx w e init) in
  performed is_readFile st = true ->
  written st =
    match exec rx content with
    | None => [content ++ new_entry e]
    | Some m =>
        if ref_differs w e m
        then [replace rx content (ref_template e)]
        else []
    end
  /\ (written st <> [] -> writeFile_ans w = Ok tt -> commitNeeded st = true).
Proof.
  intros Hread st. subst st. unfold ref_differs.
  apply (wp_run (runModify_from rx w e)
    (fun _ st =>
       performed is_readFile st = true ->
       written st =
         match exec rx content with
         | None => [content ++ new_entry e]
         | Some m =>
             if negb (str_eqb (cap2 m) (puppetfileBranchName w e))
                && negb (str_eqb (cap2 m) production)
             then [replace rx content (ref_template e)]
             else []
         end
       /\ (written st <> [] -> writeFile_ans w = Ok tt ->
           commitNeeded st = true))).
  wp_run; unfold performed, written; simpl; intros; try discriminate;
    (split; [ reflexivity | intros; congruence ]).
Qed.

(** ** The matching entries *)

(** C3, as stated, fails: the Puppetfile lists the repository twice, with
    the references old1 and old2; the run for the branch feature-x writes
    a Puppetfile in which both references are feature-x, so the later
    matching entry is not left unchanged. *)
Lemma later_matching_entry_is_rewritten_too :
  exists st,
    final_state
      (calm None true false (listed_twice squote (lit "old1") (lit "old2")))
      (ntp_event (lit "feature-x")) = Some st
    /\ written st
       = [listed_twice squote (lit "feature-x") (lit "feature-x")]
    /\ written st
       <> [listed_twice squote (lit "feature-x") (lit "old2")].
Proof.
  eexists. split; [ vm_compute; reflexivity | ].
  split; [ vm_compute; reflexivity | vm_compute; discriminate ].
Qed.

Lemma runModify_from_eq (w : world) (e : eventData) rx r st :
  module_regex (repourl e) = Some rx ->
  runModify w e = Some (r, st) ->
  st = snd (runModify_from rx w e init).
Proof.
  intros Hrx Hrun. rewrite (@runModify_built w e rx Hrx) in Hrun.
  injection Hrun as Hrun. now rewrite Hrun.
Qed.

Lemma entries_facts (url : str) (rx : regex) (content : str) :
  module_regex url = Some rx ->
  rebuild whole (entries rx content) = content
  /\ Forall (found rx content) (fst (entries rx content))
  /\ Forall (fun seg => entry_shape url (snd seg)) (fst (entries rx content))
  /\ exec rx (snd (entries rx content)) = None
  /\ forall tpl,
      replace rx content tpl
      = rebuild (fun m => expand m tpl) (entries rx content).
Proof.
  intros Hrx. pose proof (@module_regex_never_empty url rx Hrx) as Hne.
  unfold entries, replace.
  split; [ apply segments_rebuild_whole | ].
  pose proof (segments_found rx (S (length content)) [] content) as Hf.
  split; [ exact Hf | ].
  split.
  - eapply Forall_impl; [ | exact Hf ]. intros [sk m] (_ & Hm & _). simpl.
    pose proof (@module_regex_shape url rx _ _ _ _ _ (before m) Hrx Hm) as Hs.
    destruct m; exact Hs.
  - split; [ apply segments_exhaustive; [ exact Hne | lia ] | ].
    intros tpl. now apply replace_from_rebuild.
Qed.

Lemma rebuild_ext (f g : match_result -> str) x :
  (forall m, f m = g m) -> rebuild f x = rebuild g x.
Proof.
  intros H. unfold rebuild. f_equal.
  induction (fst x) as [|[sk m] l IH]; simpl; [ reflexivity | ].
  now rewrite H, IH.
Qed.

(** C3, amended: the decision is taken on the first match alone, and a
    rewrite concerns every match.  When the reference of the first match is
    the target branch or production, nothing is written, whatever the later
    matching entries refer to.  Otherwise the text written is the
    Puppetfile in which every match of [module_regex], from left to right
    and without overlap, is replaced by the expansion of the template; no
    match is left in the text after the last one; and when the branch name
    holds no dollar, each match is replaced by its first capture, the
    branch name and its third capture. *)
Theorem first_match_decides_and_every_match_is_rewritten :
  forall (w : world) (e : eventData) rx content m r st,
    module_regex (repourl e) = Some rx ->
    runModify w e = Some (r, st) ->
    performed is_readFile st = true ->
    readFile_ans w = Ok content ->
    exec rx content = Some m ->
    let es := entries rx content in
    rebuild whole es = content
    /\ (exists rest, fst es = (before m, m) :: rest)
    /\ Forall (found rx content) (fst es)
    /\ exec rx (snd es) = None
    /\ (cap2 m = puppetfileBranchName w e \/ cap2 m = production ->
        written st = [])
    /\ (cap2 m <> puppetfileBranchName w e -> cap2 m <> production ->
        written st = [rebuild (fun m' => expand m' (ref_template e)) es]
        /\ (no_dollar (branch e) = true ->
            written st
            = [rebuild (fun m' => cap1 m' ++ branch e ++ cap3 m') es])).
Proof.
  intros w e rx content m r st Hrx Hrun Hperf Hread Hexec es. subst es.
  pose proof (@runModify_from_eq w e rx r st Hrx Hrun) as ->.
  destruct (@entries_facts (repourl e) rx content Hrx) as (Hwhole & Hfound & _ & Hex & Hrep).
  destruct (@run_update rx w e content Hread Hperf) as [Hw _].
  rewrite Hexec in Hw.
  repeat split; auto.
  - now apply entries_first.
  - intros Href. apply steady_guard in Href.
    unfold ref_differs in Hw. now rewrite Href in Hw.
  - rewrite ref_differs_true in Hw by assumption. now rewrite Hw, Hrep.
  - intros Hd. rewrite ref_differs_true in Hw by assumption.
    rewrite Hw, Hrep. f_equal. apply rebuild_ext.
    intros m'. now apply expand_ref_template.
Qed.

(** The witness of C3: the repository is listed twice and both entries
    are rewritten. *)
Lemma first_match_decides_and_every_match_is_rewritten_witness :
  let content := listed_twice squote (lit "old1") (lit "old2") in
  let w := calm None true false content in
  let e := ntp_event (lit "feature-x") in
  exists st,
    final_state w e = Some st
    /\ length (fst (entries ntp_regex content)) = 2
    /\ written st
       = [rebuild (fun m' => cap1 m' ++ lit "feature-x" ++ cap3 m')
                  (entries ntp_regex content)].
Proof.
  intros content w e.
  exists (snd (runModify_from ntp_regex w e init)).
  assert (Hrun : runModify w e
                 = Some (Ok tt, snd (runModify_from ntp_regex w e init)))
    by (vm_compute; reflexivity).
  assert (Hexec : exec ntp_regex content =
    Some {| before := lit "mod 'ntp'," ++ newline :: lit "  :git => '";
            cap1 := ntp_url ++ lit "'," ++ newline :: lit "  :ref => '";
            cap2 := lit "old1";
            cap3 := squote :: [newline];
            after := newline :: entry squote (lit "ntp_legacy") ntp_url
                                      (lit "old2") |})
    by (vm_compute; reflexivity).
  pose proof (@first_match_decides_and_every_match_is_rewritten
                w e ntp_regex content _ _ _ eq_refl Hrun
                ltac:(vm_compute; reflexivity) eq_refl Hexec)
    as (_ & _ & _ & _ & _ & H).
  destruct H as [_ H]; [ vm_compute; discriminate | vm_compute; discriminate | ].
  refine (conj _ (conj _ (H eq_refl))).
  - unfold final_state. rewrite Hrun. reflexivity.
  - vm_compute. reflexivity.
Defined.

(** C7, as stated, fails: the Puppetfile lists the repository twice; the
    reference v1 of the first match differs from the branch and from
    production, and the text written differs from the Puppetfile with that
    one reference replaced: the reference of the second entry is replaced
    too. *)
Lemma rewrite_changes_more_than_one_reference :
  exists st m,
    final_state
      (calm None true false (listed_twice dquote (lit "v1") (lit "v2")))
      (ntp_event (lit "feature-x")) = Some st
    /\ exec ntp_regex (listed_twice dquote (lit "v1") (lit "v2")) = Some m
    /\ cap2 m = lit "v1"
    /\ written st
       <> [before m ++ cap1 m ++ lit "feature-x" ++ cap3 m ++ after m]
    /\ written st
       = [listed_twice dquote (lit "feature-x") (lit "feature-x")].
Proof.
  eexists. eexists. split; [ vm_compute; reflexivity | ].
  split; [ vm_compute; reflexivity | ].
  split; [ vm_compute; reflexivity | ].
  split; [ vm_compute; discriminate | vm_compute; reflexivity ].
Qed.

(** A branch name with a dollar is read as a replacement pattern: for the
    branch named [$2] the text written is the Puppetfile itself. *)
Remark dollar_in_branch_name_is_a_pattern :
  let content := entry squote (lit "ntp") ntp_url (lit "old") in
  exists st,
    final_state (calm None true false content) (ntp_event (lit "$2"))
    = Some st
    /\ written st = [content]
    /\ commitNeeded st = true.
Proof.
  eexists. split; [ vm_compute; reflexivity | split; reflexivity ].
Qed.

(** C7, amended: when the reference of the first match differs from the
    target branch and from production, and the branch name holds no dollar,
    the text written is the Puppetfile in which the second capture (the
    reference) of every match of [module_regex] is replaced by the literal
    event branch name, every other code unit being kept: the text between
    the matches, their first and third captures (the quotes and the
    punctuation around the reference) and the text after the last match.
    With a single match that is the text before it, its first capture, the
    branch name, its third capture and the text after it.  Once the write
    has succeeded [commitNeeded] is true. *)
Theorem mismatched_references_are_rewritten_in_place :
  forall (w : world) (e : eventData) rx content m r st,
    module_regex (repourl e) = Some rx ->
    runModify w e = Some (r, st) ->
    performed is_readFile st = true ->
    readFile_ans w = Ok content ->
    exec rx content = Some m ->
    cap2 m <> puppetfileBranchName w e ->
    cap2 m <> production ->
    no_dollar (branch e) = true ->
    let es := entries rx content in
    content
    = flat_map (fun '(sk, m') => sk ++ cap1 m' ++ cap2 m' ++ cap3 m') (fst es)
      ++ snd es
    /\ written st
       = [flat_map (fun '(sk, m') => sk ++ cap1 m' ++ branch e ++ cap3 m')
                   (fst es)
          ++ snd es]
    /\ Forall (fun seg => entry_shape (repourl e) (snd seg)) (fst es)
    /\ (length (fst es) = 1 ->
        written st
        = [before m ++ cap1 m ++ branch e ++ cap3 m ++ after m])
    /\ (writeFile_ans w = Ok tt -> commitNeeded st = true).
Proof.
  intros w e rx content m r st Hrx Hrun Hperf Hread Hexec H1 H2 Hd es.
  subst es.
  pose proof (@runModify_from_eq w e rx r st Hrx Hrun) as ->.
  destruct (@entries_facts (repourl e) rx content Hrx)
    as (Hwhole & Hfound & Hshape & _ & Hrep).
  destruct (@run_update rx w e content Hread Hperf) as [Hw Hc].
  rewrite Hexec, ref_differs_true in Hw by assumption.
  assert (Hnew : written (snd (runModify_from rx w e init))
                 = [rebuild (fun m' => cap1 m' ++ branch e ++ cap3 m')
                            (entries rx content)]).
  { rewrite Hw, Hrep. f_equal. apply rebuild_ext.
    intros m'. now apply expand_ref_template. }
  split; [ symmetry; exact Hwhole | ].
  split; [ exact Hnew | ].
  split; [ exact Hshape | ].
  split.
  - intros Hone. rewrite Hnew. f_equal.
    destruct (@entries_first rx content m Hexec) as (rest & Hfst).
    unfold rebuild in *.
    destruct (entries rx content) as [segs tl]. simpl in *. subst segs.
    destruct rest; [ | discriminate ]. simpl in *.
    rewrite !app_nil_r in *.
    apply Forall_inv in Hfound. destruct Hfound as (Hcontent & _).
    rewrite <- Hcontent in Hwhole. unfold whole in Hwhole.
    rewrite <- !app_assoc in Hwhole.
    repeat apply app_inv_head in Hwhole. rewrite Hwhole.
    now rewrite <- !app_assoc.
  - intros Hok. apply Hc; [ rewrite Hw; discriminate | exact Hok ].
Qed.

(** The witness of C7: a single entry refers to old; the run for the
    branch feature-x writes the same entry with feature-x. *)
Lemma mismatched_references_are_rewritten_in_place_witness :
  let content := entry squote (lit "ntp") ntp_url (lit "old") in
  let w := calm None true false content in
  let e := ntp_event (lit "feature-x") in
  exists st,
    final_state w e = Some st
    /\ written st = [entry squote (lit "ntp") ntp_url (lit "feature-x")]
    /\ commitNeeded st = true.
Proof.
  intros content w e.
  exists (snd (runModify_from ntp_regex w e init)).
  assert (Hrun : runModify w e
                 = Some (Ok tt, snd (runModify_from ntp_regex w e init)))
    by (vm_compute; reflexivity).
  assert (Hexec : exec ntp_regex content =
    Some {| before := lit "mod 'ntp'," ++ newline :: lit "  :git => '";
            cap1 := ntp_url ++ lit "'," ++ newline :: lit "  :ref => '";
            cap2 := lit "old";
            cap3 := squote :: [newline];
            after := [] |})
    by (vm_compute; reflexivity).
  pose proof (@mismatched_references_are_rewritten_in_place
                w e ntp_regex content _ _ _ eq_refl Hrun
                ltac:(vm_compute; reflexivity) eq_refl Hexec
                ltac:(vm_compute; discriminate)
                ltac:(vm_compute; discriminate)
                eq_refl)
    as (_ & _ & _ & Hone & Hc).
  refine (conj _ (conj _ (Hc eq_refl))).
  - unfold final_state. rewrite Hrun. reflexivity.
  - rewrite (Hone ltac:(vm_compute; reflexivity)).
    vm_compute. reflexivity.
Defined.

(** ** Entries of other repositories *)

(** C4 does not hold of the code: the Puppetfile holds one entry, for a
    repository on another host whose URL ends with the text of the URL of
    the event; the run finds no entry of its own module to update, and yet
    it rewrites the reference of that entry of the other repository.  Line
    47 puts the URL into the pattern as it is, without escaping it and
    without anchoring it on its left. *)
Lemma entry_of_another_repository_is_rewritten :
  exists st,
    final_state
      (calm None true false (entry squote (lit "ntp") legacy_url (lit "1.2.0")))
      (short_event (lit "feature-x")) = Some st
    /\ legacy_url <> repourl (short_event (lit "feature-x"))
    /\ written st = [entry squote (lit "ntp") legacy_url (lit "feature-x")].
Proof.
  eexists. split; [ vm_compute; reflexivity | ].
  split; [ vm_compute; discriminate | vm_compute; reflexivity ].
Qed.

(** What a run keeps of the Puppetfile, for a URL that holds no syntax
    character of patterns other than the dot.  A match of [module_regex]
    starts with a text [u] that the pattern made of the URL of the event
    matches (the URL itself when it holds no dot), followed by a quote, a
    comma, [:ref], [=>] and the quoted reference up to the end of the line.
    A run that reads the Puppetfile writes nothing, or the Puppetfile
    followed by the new entry, or the Puppetfile in which each match is
    replaced by the expansion of the template: the text outside the matches
    is kept, and when the branch name holds no dollar, so is everything
    outside the references of the matches. *)
Theorem only_text_matching_the_url_pattern_is_touched :
  forall (w : world) (e : eventData) rx content r st,
    module_regex (repourl e) = Some rx ->
    runModify w e = Some (r, st) ->
    performed is_readFile st = true ->
    readFile_ans w = Ok content ->
    let es := entries rx content in
    Forall (fun seg => entry_shape (repourl e) (snd seg)) (fst es)
    /\ (forall u, no_dot (repourl e) = true ->
                  url_matches (repourl e) u -> u = repourl e)
    /\ rebuild whole es = content
    /\ (written st = []
        \/ (written st = [content ++ new_entry e] /\ fst es = [])
        \/ (written st = [rebuild (fun m => expand m (ref_template e)) es]
            /\ (no_dollar (branch e) = true ->
                written st
                = [rebuild (fun m => cap1 m ++ branch e ++ cap3 m) es]))).
Proof.
  intros w e rx content r st Hrx Hrun Hperf Hread es. subst es.
  pose proof (@runModify_from_eq w e rx r st Hrx Hrun) as ->.
  destruct (@entries_facts (repourl e) rx content Hrx)
    as (Hwhole & _ & Hshape & _ & Hrep).
  destruct (@run_update rx w e content Hread Hperf) as [Hw _].
  split; [ exact Hshape | ].
  split; [ intros u Hd Hu; now apply url_matches_plain | ].
  split; [ exact Hwhole | ].
  destruct (exec rx content) as [m|] eqn:Hexec.
  - destruct (ref_differs w e m); [ right; right | now left ].
    split; [ now rewrite Hw, Hrep | ].
    intros Hd. rewrite Hw, Hrep. f_equal. apply rebuild_ext.
    intros m'. now apply expand_ref_template.
  - right; left. split; [ exact Hw | ].
    now rewrite (@entries_none rx content Hexec).
Qed.

(** An entry for another URL, which the pattern does not match, is left as
    it is and the entry of the module is appended. *)
Lemma only_text_matching_the_url_pattern_is_touched_witness :
  let content := entry squote (lit "apache")
                   (lit "git@git.example.com:puppet/apache.git")
                   (lit "production") in
  let w := calm None true false content in
  let e := ntp_event (lit "feature-x") in
  exists st,
    final_state w e = Some st
    /\ fst (entries ntp_regex content) = []
    /\ written st = [content ++ new_entry e].
Proof.
  intros content w e.
  exists (snd (runModify_from ntp_regex w e init)).
  assert (Hrun : runModify w e
                 = Some (Ok tt, snd (runModify_from ntp_regex w e init)))
    by (vm_compute; reflexivity).
  pose proof (@only_text_matching_the_url_pattern_is_touched
                w e ntp_regex content _ _ eq_refl Hrun
                ltac:(vm_compute; reflexivity) eq_refl)
    as (_ & _ & _ & H).
  refine (conj _ (conj _ _)).
  - unfold final_state. rewrite Hrun. reflexivity.
  - vm_compute. reflexivity.
  - vm_compute. reflexivity.
Defined.

(** ** A module the Puppetfile does not mention *)

(** C8, as stated, fails in its second half: the event is on the branch
    production, the default branch is main, and the entry of the module
    refers to old; the entry is found, so nothing is appended, and the
    reference written is the name of the event branch, production, not the
    resolved name main. *)
Lemma rewrite_writes_the_event_branch_name :
  let content := entry squote (lit "ntp") ntp_url (lit "old") in
  let w := calm (Some (lit "main")) true false content in
  let e := ntp_event (lit "production") in
  exists st m,
    final_state w e = Some st
    /\ exec ntp_regex content = Some m
    /\ puppetfileBranchName w e = lit "main"
    /\ written st = [entry squote (lit "ntp") ntp_url (lit "production")]
    /\ written st <> [entry squote (lit "ntp") ntp_url (lit "main")].
Proof.
  eexists. eexists. split; [ vm_compute; reflexivity | ].
  split; [ vm_compute; reflexivity | ].
  split; [ vm_compute; reflexivity | ].
  split; [ vm_compute; reflexivity | vm_compute; discriminate ].
Qed.

(** C8, amended: when [module_regex] finds no match in the Puppetfile, in
    particular when the Puppetfile holds no text that the pattern of the
    URL matches, the run writes once, the Puppetfile followed by one entry
    for the module whose reference is the literal event branch name, and
    [commitNeeded] is true once the write has succeeded.  The append is not
    the only place where the event branch name is written: whatever a run
    writes is either that text or the Puppetfile with the matches replaced
    through the template made of the event branch name. *)
Theorem missing_module_is_appended_with_the_event_branch :
  forall (w : world) (e : eventData) rx content r st,
    module_regex (repourl e) = Some rx ->
    runModify w e = Some (r, st) ->
    performed is_readFile st = true ->
    readFile_ans w = Ok content ->
    (exec rx content = None \/ ~ mentions (repourl e) content ->
     written st
     = [content ++ newline
        :: entry dquote (reponame e) (repourl e) (branch e)]
     /\ (writeFile_ans w = Ok tt -> commitNeeded st = true))
    /\ (forall data,
          In data (written st) ->
          data = content ++ newline
                 :: entry dquote (reponame e) (repourl e) (branch e)
          \/ data = replace rx content (lit "$1" ++ branch e ++ lit "$3")).
Proof.
  intros w e rx content r st Hrx Hrun Hperf Hread.
  pose proof (@runModify_from_eq w e rx r st Hrx Hrun) as ->.
  destruct (@run_update rx w e content Hread Hperf) as [Hw Hc].
  split.
  - intros Hnone.
    assert (Hexec : exec rx content = None).
    { destruct Hnone as [H | H]; [ exact H | ].
      now apply (@unmentioned_no_match (repourl e)). }
    rewrite Hexec in Hw. split; [ exact Hw | ].
    intros Hok. apply Hc; [ rewrite Hw; discriminate | exact Hok ].
  - intros data Hin. rewrite Hw in Hin.
    destruct (exec rx content) as [m|].
    + destruct (ref_differs w e m); [ | contradiction ].
      destruct Hin as [<- | []]. now right.
    + destruct Hin as [<- | []]. now left.
Qed.

(** The witness of C8: the Puppetfile lists another module only. *)
Lemma missing_module_is_appended_with_the_event_branch_witness :
  let content := entry squote (lit "apache")
                   (lit "git@git.example.com:puppet/apache.git")
                   (lit "production") in
  let w := calm None true false content in
  let e := ntp_event (lit "feature-x") in
  exists st,
    final_state w e = Some st
    /\ exec ntp_regex content = None
    /\ written st
       = [content ++ newline
          :: entry dquote (lit "ntp") ntp_url (lit "feature-x")]
    /\ commitNeeded st = true.
Proof.
  intros content w e.
  exists (snd (runModify_from ntp_regex w e init)).
  assert (Hrun : runModify w e
                 = Some (Ok tt, snd (runModify_from ntp_regex w e init)))
    by (vm_compute; reflexivity).
  assert (Hexec : exec ntp_regex content = None) by (vm_compute; reflexivity).
  pose proof (@missing_module_is_appended_with_the_event_branch
                w e ntp_regex content _ _ eq_refl Hrun
                ltac:(vm_compute; reflexivity) eq_refl)
    as (H & _).
  destruct (H (or_introl Hexec)) as [Hw Hc].
  refine (conj _ (conj Hexec (conj Hw (Hc eq_refl)))).
  unfold final_state. rewrite Hrun. reflexivity.
Defined.

(** ** The name of the clone directory *)

Lemma lit_inj (a b : string) : lit a = lit b -> a = b.
Proof.
  unfold lit. intros H.
  rewrite <- (string_of_list_ascii_of_string a),
          <- (string_of_list_ascii_of_string b).
  f_equal. revert H.
  generalize (list_ascii_of_string a) (list_ascii_of_string b).
  induction l as [|x l IH]; intros [|y l']; simpl; try discriminate; auto.
  intros [= Hxy Hl]. f_equal; [ | auto ].
  rewrite <- (ascii_N_embedding x), <- (ascii_N_embedding y). now f_equal.
Qed.

Lemma number_to_string_inj (a b : Z) :
  number_to_string a = number_to_string b -> a = b.
Proof.
  unfold number_to_string. intros H. apply lit_inj in H.
  apply DecimalZ.to_int_inj.
  assert (Hnn : forall z, Z.to_int z <> Decimal.Pos Decimal.Nil
                          /\ Z.to_int z <> Decimal.Neg Decimal.Nil).
  { intros [|p|p]; simpl; split; try discriminate;
      intros [= E]; now apply (DecimalPos.Unsigned.to_uint_nonnil p). }
  destruct (Hnn a) as [Ha1 Ha2]. destruct (Hnn b) as [Hb1 Hb2].
  pose proof (@NilZero.isi (Z.to_int a) Ha1 Ha2) as Ea.
  pose proof (@NilZero.isi (Z.to_int b) Hb1 Hb2) as Eb.
  rewrite H in Ea. congruence.
Qed.

(** C10, as stated, fails: two runs for different modules, started in the
    same millisecond, clone into the same directory. *)
Lemma runs_of_the_same_millisecond_share_the_clone_directory :
  let w1 := calm None true false [] in
  let w2 := calm None false false
              (entry squote (lit "ntp") legacy_url (lit "1.2.0")) in
  let e1 := ntp_event (lit "feature-x") in
  let e2 := short_event (lit "hotfix") in
  (w1, e1) <> (w2, e2)
  /\ gitdir w1 = gitdir w2
  /\ (exists st1 st2,
        final_state w1 e1 = Some st1 /\ final_state w2 e2 = Some st2
        /\ hd_error (calls st1) = Some (GU_clone (gitdir w1) (pfrepo e1))
        /\ hd_error (calls st2) = Some (GU_clone (gitdir w1) (pfrepo e2))).
Proof.
  intros w1 w2 e1 e2. split; [ vm_compute; discriminate | ].
  split; [ reflexivity | ].
  eexists. eexists. split; [ vm_compute; reflexivity | ].
  split; [ vm_compute; reflexivity | ].
  split; vm_compute; reflexivity.
Qed.

(** C10, amended: the name of the clone directory is made of the clock
    alone, read in milliseconds at the start of the run; two runs have
    distinct clone directories exactly when their clock readings differ. *)
Theorem clone_directories_differ_iff_clocks_differ :
  forall (w1 w2 : world),
    gitdir w1 <> gitdir w2 <-> Date_now w1 <> Date_now w2.
Proof.
  intros w1 w2. unfold gitdir. split; intros H E; apply H.
  - now rewrite E.
  - apply app_inv_head in E. now apply number_to_string_inj.
Qed.

(** ** The deployment request and two end-to-end scenarios *)

(** The Rundeck job is requested at most once; its data carry the user,
    the module, the path and the URL of the event, the resolved branch
    name, and the type deploy_env when [fullDeploymentNeeded], deploy_mod
    otherwise. *)
Theorem deployment_request_follows_the_flags :
  forall (rx : regex) (w : world) (e : eventData),
    let st := snd (runModify_from rx w e init) in
    length (filter is_runJob (calls st)) <= 1
    /\ Forall
         (fun c =>
            match c with
            | RD_runJob data =>
                data = {| rd_pushUsername := pushuser e;
                          rd_branch := puppetfileBranchName w e;
                          rd_module := reponame e;
                          rd_path := repopath e;
                          rd_repoUrl := repourl e;
                          rd_type := if fullDeploymentNeeded st
                                     then lit "deploy_env"
                                     else lit "deploy_mod" |}
            | _ => True
            end)
         (calls st).
Proof.
  intros rx w e st. subst st.
  apply (wp_run (runModify_from rx w e)
    (fun _ st =>
       length (filter is_runJob (calls st)) <= 1
       /\ Forall
            (fun c =>
               match c with
               | RD_runJob data =>
                   data = {| rd_pushUsername := pushuser e;
                             rd_branch := puppetfileBranchName w e;
                             rd_module := reponame e;
                             rd_path := repopath e;
                             rd_repoUrl := repourl e;
                             rd_type := if fullDeploymentNeeded st
                                        then lit "deploy_env"
                                        else lit "deploy_mod" |}
               | _ => True
               end)
            (calls st))).
  wp_run; simpl; (split; [ auto | repeat constructor ]).
Qed.

(** Scenario B: the branch exists, the checkout merged commits of
    production, and the entry of the module already refers to the target
    branch or to production.  The run writes and commits nothing, pushes,
    and requests the deployment of the whole environment. *)
Theorem merged_branch_with_steady_manifest :
  forall (default : option str) (e : eventData) rx content m,
    exec rx content = Some m ->
    let w := calm default true true content in
    cap2 m = puppetfileBranchName w e \/ cap2 m = production ->
    runModify_from rx w e init
    = (Ok tt,
       {| calls :=
            [GU_clone (gitdir w) (pfrepo e);
             GU_fetch (gitdir w);
             GU_branchExist (puppetfileBranchName w e) (gitdir w);
             GU_checkoutExisting (puppetfileBranchName w e) (gitdir w);
             fse_readFile (pfile w);
             GU_push (puppetfileBranchName w e) (gitdir w);
             RD_runJob (make_rundeck_data w e (lit "deploy_env"));
             fse_remove (gitdir w);
             cbk None];
          fullDeploymentNeeded := true;
          commitNeeded := false |}).
Proof.
  intros default e rx content m Hexec w Href.
  apply steady_guard in Href.
  unfold runModify_from, try_catch, try_block, checkout_branch,
    update_puppetfile, commit_and_push, deploy, when, bind, yield, ret,
    set_commitNeeded, set_fullDeploymentNeeded, get_commitNeeded,
    get_fullDeploymentNeeded, init.
  cbn [clone_ans fetch_ans branchExist_ans checkoutExisting_ans readFile_ans
       push_ans runJob_ans remove_ans w calm calls fullDeploymentNeeded
       commitNeeded app orb].
  rewrite Hexec. fold w. rewrite Href. reflexivity.
Qed.

(** Scenario B on the sample Puppetfile. *)
Lemma merged_branch_with_steady_manifest_witness :
  let content := entry squote (lit "ntp") ntp_url (lit "feature-x") in
  let st := snd (runModify_from ntp_regex (calm None true true content)
                                (ntp_event (lit "feature-x")) init) in
  performed is_commit st = false
  /\ performed is_push st = true
  /\ fullDeploymentNeeded st = true.
Proof.
  intros content st. subst st.
  rewrite (@merged_branch_with_steady_manifest None
             (ntp_event (lit "feature-x")) ntp_regex content
             {| before := lit "mod 'ntp'," ++ newline :: lit "  :git => '";
                cap1 := ntp_url ++ lit "'," ++ newline :: lit "  :ref => '";
                cap2 := lit "feature-x";
                cap3 := squote :: [newline];
                after := [] |}
             ltac:(vm_compute; reflexivity) (or_introl eq_refl)).
  repeat split.
Defined.

(** Scenario C: the branch does not exist and the Puppetfile has no match
    for the module.  The run creates the branch, appends the entry,
    commits, pushes, and requests the deployment of the whole environment. *)
Theorem new_branch_with_missing_module :
  forall (default : option str) (merged : bool) (e : eventData) rx content,
    exec rx content = None ->
    let w := calm default false merged content in
    runModify_from rx w e init
    = (Ok tt,
       {| calls :=
            [GU_clone (gitdir w) (pfrepo e);
             GU_fetch (gitdir w);
             GU_branchExist (puppetfileBranchName w e) (gitdir w);
             GU_checkoutNew (puppetfileBranchName w e) (gitdir w);
             fse_readFile (pfile w);
             fse_writeFile (pfile w) (content ++ new_entry e);
             GU_commit (reponame e) (puppetfileBranchName w e) (gitdir w);
             GU_push (puppetfileBranchName w e) (gitdir w);
             RD_runJob (make_rundeck_data w e (lit "deploy_env"));
             fse_remove (gitdir w);
             cbk None];
          fullDeploymentNeeded := true;
          commitNeeded := true |}).
Proof.
  intros default merged e rx content Hexec w.
  unfold runModify_from, try_catch, try_block, checkout_branch,
    update_puppetfile, commit_and_push, deploy, when, bind, yield, ret,
    set_commitNeeded, set_fullDeploymentNeeded, get_commitNeeded,
    get_fullDeploymentNeeded, init.
  cbn [clone_ans fetch_ans branchExist_ans checkoutNew_ans readFile_ans
       writeFile_ans commit_ans push_ans runJob_ans remove_ans w calm calls
       fullDeploymentNeeded commitNeeded app orb].
  rewrite Hexec. reflexivity.
Qed.

(** Scenario C on an empty Puppetfile. *)
Lemma new_branch_with_missing_module_witness :
  written (snd (runModify_from ntp_regex (calm None false false [])
                               (ntp_event (lit "new-module")) init))
  = [new_entry (ntp_event (lit "new-module"))].
Proof.
  rewrite (@new_branch_with_missing_module None false
             (ntp_event (lit "new-module")) ntp_regex []
             ltac:(vm_compute; reflexivity)).
  reflexivity.
Defined.

(** ** More on the pipeline *)

(** Every call of a run stays in its workspace: the git calls work in the
    clone directory on the resolved branch, the only file read or written
    is the Puppetfile of the clone directory, the only directory removed is
    the clone directory, and the only change of directory goes back to the
    initial working directory. *)
Theorem calls_stay_in_the_workspace :
  forall (rx : regex) (w : world) (e : eventData),
    Forall (in_workspace w e) (calls (snd (runModify_from rx w e init))).
Proof.
  intros rx w e.
  apply (wp_run (runModify_from rx w e)
           (fun _ st => Forall (in_workspace w e) (calls st))).
  wp_run; simpl; repeat constructor.
Qed.

(** [fullDeploymentNeeded] is true at the end of a run exactly when the run
    created the branch, or checked out the existing branch and was told
    that commits of production were merged; a checkout that merged nothing
    leaves it false. *)
Theorem fullDeploymentNeeded_iff_new_branch_or_merge :
  forall (rx : regex) (w : world) (e : eventData),
    let st := snd (runModify_from rx w e init) in
    fullDeploymentNeeded st = true <->
    (performed is_checkoutNew st = true /\ checkoutNew_ans w = Ok tt)
    \/ (performed is_checkoutExisting st = true
        /\ checkoutExisting_ans w = Ok true).
Proof.
  intros rx w e st. subst st.
  apply (wp_run (runModify_from rx w e)
    (fun _ st =>
       fullDeploymentNeeded st = true <->
       (performed is_checkoutNew st = true /\ checkoutNew_ans w = Ok tt)
       \/ (performed is_checkoutExisting st = true
           /\ checkoutExisting_ans w = Ok true))).
  wp_run; unfold performed; simpl;
    repeat match goal with u : unit |- _ => destruct u end;
    intuition congruence.
Qed.

Ltac split_last_call :=
  match goal with
  | |- exists pre c, ?l = _ /\ _ =>
      let pre := all_before l 1 in
      match l with
      | context [ [?c] ] =>
          exists pre, c; split; [ reflexivity | answers ]
      end
  end.

(** The steps of the try block are performed in their order, each at most
    once, and only as long as every step before has succeeded: all calls
    but the last have succeeded, and the block throws exactly the error of
    its last call. *)
Theorem steps_run_in_order_until_the_first_failure :
  forall (rx : regex) (w : world) (e : eventData),
    let r0 := fst (try_block rx w e init) in
    let st0 := snd (try_block rx w e init) in
    increasing (map step_rank (calls st0)) = true
    /\ Forall (fun c => failure_of w c = None) (removelast (calls st0))
    /\ match r0 with
       | Ok _ => Forall (fun c => failure_of w c = None) (calls st0)
       | Throw err =>
           exists pre c, calls st0 = pre ++ [c] /\ failure_of w c = Some err
       end.
Proof.
  intros rx w e r0 st0. subst r0 st0.
  apply (wp_run (try_block rx w e)
    (fun r0 st0 =>
       increasing (map step_rank (calls st0)) = true
       /\ Forall (fun c => failure_of w c = None) (removelast (calls st0))
       /\ match r0 with
          | Ok _ => Forall (fun c => failure_of w c = None) (calls st0)
          | Throw err =>
              exists pre c,
                calls st0 = pre ++ [c] /\ failure_of w c = Some err
          end)).
  wp_run;
    try match goal with
        | |- context [match cbk_ans w with _ => _ end] =>
            let E := fresh "E" in destruct (cbk_ans w) eqn:E
        end;
    (split; [ reflexivity | split; [ simpl; repeat constructor; answers | ] ]);
    first [ split_last_call | simpl; repeat constructor; answers ].
Qed.

(** Scenario A: the branch exists, the checkout merged nothing, and the
    entry of the module already refers to the target branch or to
    production.  The run writes, commits and pushes nothing, and requests
    the update of the module alone. *)
Theorem unmerged_branch_with_steady_manifest :
  forall (default : option str) (e : eventData) rx content m,
    exec rx content = Some m ->
    let w := calm default true false content in
    cap2 m = puppetfileBranchName w e \/ cap2 m = production ->
    runModify_from rx w e init
    = (Ok tt,
       {| calls :=
            [GU_clone (gitdir w) (pfrepo e);
             GU_fetch (gitdir w);
             GU_branchExist (puppetfileBranchName w e) (gitdir w);
             GU_checkoutExisting (puppetfileBranchName w e) (gitdir w);
             fse_readFile (pfile w);
             RD_runJob (make_rundeck_data w e (lit "deploy_mod"));
             fse_remove (gitdir w);
             cbk None];
          fullDeploymentNeeded := false;
          commitNeeded := false |}).
Proof.
  intros default e rx content m Hexec w Href.
  apply steady_guard in Href.
  unfold runModify_from, try_catch, try_block, checkout_branch,
    update_puppetfile, commit_and_push, deploy, when, bind, yield, ret,
    set_commitNeeded, set_fullDeploymentNeeded, get_commitNeeded,
    get_fullDeploymentNeeded, init.
  cbn [clone_ans fetch_ans branchExist_ans checkoutExisting_ans readFile_ans
       push_ans runJob_ans remove_ans w calm calls fullDeploymentNeeded
       commitNeeded app orb].
  rewrite Hexec. fold w. rewrite Href. reflexivity.
Qed.

(** Scenario A on the sample Puppetfile. *)
Lemma unmerged_branch_with_steady_manifest_witness :
  let content := entry squote (lit "ntp") ntp_url (lit "feature-x") in
  let st := snd (runModify_from ntp_regex (calm None true false content)
                                (ntp_event (lit "feature-x")) init) in
  length (calls st) = 8
  /\ performed is_push st = false
  /\ fullDeploymentNeeded st = false.
Proof.
  intros content st. subst st.
  rewrite (@unmerged_branch_with_steady_manifest None
             (ntp_event (lit "feature-x")) ntp_regex content
             {| before := lit "mod 'ntp'," ++ newline :: lit "  :git => '";
                cap1 := ntp_url ++ lit "'," ++ newline :: lit "  :ref => '";
                cap2 := lit "feature-x";
                cap3 := squote :: [newline];
                after := [] |}
             ltac:(vm_compute; reflexivity) (or_introl eq_refl)).
  repeat split.
Defined.

(** ** Completeness of the matcher *)

Lemma star_ms_stop (step : str -> list (str * str)) fuel s :
  In ([], s) (star_ms step fuel s).
Proof.
  destruct fuel; simpl; [ now left | ].
  apply in_or_app. right. now left.
Qed.

Lemma star_ms_mono (step : str -> list (str * str)) :
  forall fuel fuel' s x,
    fuel <= fuel' -> In x (star_ms step fuel s) -> In x (star_ms step fuel' s).
Proof.
  induction fuel as [|fuel IH]; intros fuel' s x Hle; simpl.
  - intros [<- | []]. apply star_ms_stop.
  - destruct fuel' as [|fuel']; [ lia | ]. simpl.
    rewrite !in_app_iff, !in_flat_map.
    intros [((p1 & s1) & H1 & H2) | H]; [ left | now right ].
    exists (p1, s1). split; [ exact H1 | ].
    destruct p1 as [|c p1]; [ contradiction | ].
    apply in_map_iff in H2 as (y & <- & H2).
    apply in_map_iff. exists y. split; [ reflexivity | ].
    apply (IH fuel'); [ lia | exact H2 ].
Qed.

Lemma ms_complete (r : re) (p : str) :
  lang r p -> forall t, In (p, t) (ms r (p ++ t)).
Proof.
  induction 1 as [ | a c Hc | r1 r2 p1 p2 _ IH1 _ IH2 | r
                 | r p1 p2 _ IH1 _ IH2 ]; intros t.
  - now left.
  - simpl. rewrite Hc. now left.
  - simpl. apply in_flat_map. exists (p1, p2 ++ t). split.
    + rewrite <- app_assoc. apply IH1.
    + apply in_map_iff. exists (p2, t). split; [ reflexivity | apply IH2 ].
  - simpl. apply star_ms_stop.
  - destruct p1 as [|c p1]; [ apply IH2 | ].
    cbn [ms]. rewrite <- app_assoc.
    change (length ((c :: p1) ++ p2 ++ t)) with (S (length (p1 ++ p2 ++ t))).
    cbn [star_ms]. apply in_or_app. left.
    apply in_flat_map. exists (c :: p1, p2 ++ t). split; [ apply IH1 | ].
    apply in_map_iff. exists (p2, t). split; [ reflexivity | ].
    apply star_ms_mono with (fuel := length (p2 ++ t)).
    + rewrite !length_app. lia.
    + exact (IH2 t).
Qed.

Lemma In_hd_error {A} (l : list A) (x : A) :
  In x l -> exists y, hd_error l = Some y.
Proof. destruct l; simpl; [ contradiction | eauto ]. Qed.

(** An attempt succeeds wherever the three groups and the end of the line
    can be matched. *)
Lemma match_here_complete (rx : regex) (c1 c2 c3 s3 : str) :
  lang (g1 rx) c1 -> lang (g2 rx) c2 -> lang (g3 rx) c3 ->
  at_eol s3 = true ->
  exists r, match_here rx (c1 ++ c2 ++ c3 ++ s3) = Some r.
Proof.
  intros L1 L2 L3 Heol. unfold match_here.
  apply In_hd_error with (x := (c1, c2, c3, s3)).
  apply in_flat_map. exists (c1, c2 ++ c3 ++ s3).
  split; [ now apply ms_complete | ].
  apply in_flat_map. exists (c2, c3 ++ s3).
  split; [ now apply ms_complete | ].
  apply in_flat_map. exists (c3, s3).
  split; [ now apply ms_complete | ].
  rewrite Heol. now left.
Qed.

Lemma search_eq (rx : regex) (done s : str) :
  search rx done s =
  match match_here rx s with
  | Some (c1, c2, c3, s3) =>
      Some {| before := done; cap1 := c1; cap2 := c2; cap3 := c3;
              after := s3 |}
  | None =>
      match s with
      | [] => None
      | c :: t => search rx (done ++ [c]) t
      end
  end.
Proof. destruct s; reflexivity. Qed.

(** The search stops at the first position where an attempt succeeds. *)
Lemma search_finds (rx : regex) (s' : str) c1 c2 c3 s3 :
  match_here rx s' = Some (c1, c2, c3, s3) ->
  forall pre done,
    no_match_inside rx pre s' ->
    search rx done (pre ++ s')
    = Some {| before := done ++ pre; cap1 := c1; cap2 := c2; cap3 := c3;
              after := s3 |}.
Proof.
  intros Hm. induction pre as [|c pre IH]; intros done Hno.
  - simpl. rewrite search_eq, Hm. now rewrite app_nil_r.
  - change ((c :: pre) ++ s') with (c :: pre ++ s').
    rewrite search_eq.
    rewrite (Hno [] c pre eq_refl).
    rewrite IH.
    + now rewrite <- app_assoc.
    + intros a x b Hab. apply (Hno (c :: a) x b). simpl. now rewrite Hab.
Qed.

(** ** The captures of a match are fixed by the quotes *)

Lemma white_is_no_quote (c : cu) : white_space c = true -> is_quote c = false.
Proof.
  intros Hw. destruct (is_quote c) eqn:Hq; [ | reflexivity ].
  unfold is_quote, mem in Hq. simpl in Hq.
  rewrite orb_false_r in Hq. apply orb_true_iff in Hq as [Hq | Hq];
    apply N.eqb_eq in Hq; subst c; discriminate.
Qed.

Lemma white_quote_free (ws : str) : white ws -> quote_free ws.
Proof.
  unfold white, quote_free. intros H. eapply Forall_impl; [ | exact H ].
  intros c. apply white_is_no_quote.
Qed.

Lemma quote_free_app (a b : str) :
  quote_free a -> quote_free b -> quote_free (a ++ b).
Proof. unfold quote_free. intros. now apply Forall_app. Qed.

(** Two ways of cutting a text at its first quote are the same. *)
Lemma first_quote_unique (a a' b b' : str) (q q' : cu) :
  quote_free a -> quote_free a' ->
  is_quote q = true -> is_quote q' = true ->
  a ++ q :: b = a' ++ q' :: b' ->
  a = a' /\ q = q' /\ b = b'.
Proof.
  intros Ha. revert a'. induction Ha as [|x a Hx Ha IH]; intros a' Ha' Hq Hq' E.
  - destruct a' as [|y a']; simpl in E.
    + injection E as -> ->. auto.
    + injection E as -> _. apply Forall_inv in Ha'. congruence.
  - destruct a' as [|y a']; simpl in E.
    + injection E as -> _. congruence.
    + injection E as -> E. apply Forall_inv_tail in Ha'.
      destruct (IH a' Ha' Hq Hq' E) as (-> & -> & ->). auto.
Qed.

(** The first group of [module_regex]: a text matched by the pattern of the
    URL, a quote, a text without quotes, a quote. *)
Lemma first_group_shape (url : str) (rx : regex) (c1 : str) :
  module_regex url = Some rx ->
  lang (g1 rx) c1 ->
  exists u q1 mid q2,
    c1 = u ++ q1 :: mid ++ [q2]
    /\ url_matches url u
    /\ is_quote q1 = true /\ is_quote q2 = true
    /\ quote_free mid.
Proof.
  unfold module_regex. destruct (url_re url) as [ur|] eqn:Hu; [ | discriminate ].
  intros [= <-] L1. simpl in L1.
  apply lang_seq_inv in L1 as (u & p & -> & Lu & L1).
  apply lang_seq_inv in L1 as (pq1 & p1 & -> & Lq1 & L1).
  apply lang_at_inv in Lq1 as (q1 & -> & Hq1).
  apply lang_seq_inv in L1 as (pc & p2 & -> & Lc & L1).
  apply (@lang_chars (lit ",")) in Lc as ->.
  apply lang_seq_inv in L1 as (ws1 & p3 & -> & Lw1 & L1).
  apply lang_star_atom in Lw1.
  apply lang_seq_inv in L1 as (pr & p4 & -> & Lr & L1).
  apply (@lang_chars (lit ":ref")) in Lr as ->.
  apply lang_seq_inv in L1 as (ws2 & p5 & -> & Lw2 & L1).
  apply lang_star_atom in Lw2.
  apply lang_seq_inv in L1 as (pa & p6 & -> & La & L1).
  apply (@lang_chars (lit "=>")) in La as ->.
  apply lang_seq_inv in L1 as (ws3 & p7 & -> & Lw3 & L1).
  apply lang_star_atom in Lw3.
  apply lang_at_inv in L1 as (q2 & -> & Hq2).
  exists u, q1, (lit "," ++ ws1 ++ lit ":ref" ++ ws2 ++ lit "=>" ++ ws3), q2.
  split.
  { simpl. repeat (rewrite <- app_assoc; simpl). reflexivity. }
  split; [ eapply lang_url; eauto | ].
  split; [ exact Hq1 | split; [ exact Hq2 | ] ].
  repeat apply quote_free_app; try (now apply white_quote_free);
    unfold quote_free; repeat constructor.
Qed.

Lemma url_matches_length (url u : str) :
  url_matches url u -> length u = length url.
Proof. intros H. symmetry. exact (Forall2_length H). Qed.

Lemma app_same_length {A} (a a' b b' : list A) :
  length a = length a' -> a ++ b = a' ++ b' -> a = a' /\ b = b'.
Proof.
  revert a'. induction a as [|x a IH]; intros [|y a']; simpl;
    try discriminate; auto.
  intros [= Hl] [= -> E]. destruct (IH a' Hl E) as [-> ->]. auto.
Qed.

(** In a text that starts with a first group, a reference without quotes
    and a quote, an attempt can only capture that first group and that
    reference. *)
Lemma captures_are_determined (url : str) (rx : regex)
    (c1 ref rest c1' c2' c3' s3' : str) (q : cu) :
  module_regex url = Some rx ->
  lang (g1 rx) c1 ->
  quote_free ref ->
  is_quote q = true ->
  match_here rx (c1 ++ ref ++ q :: rest) = Some (c1', c2', c3', s3') ->
  c1' = c1 /\ c2' = ref.
Proof.
  intros Hrx L1 Href Hq Hm.
  pose proof (@module_regex_shape url rx _ _ _ _ _ [] Hrx Hm)
    as (u' & q1' & ws1 & ws2 & ws3 & q2' & q3' & ws4 & H1 & Hu' & Hq1' & Hq2'
        & Hq3' & W1 & W2 & W3 & W4 & _ & H2 & H3 & _).
  cbn [cap1 cap2 cap3 after] in H1, H2, H3.
  apply match_here_sound in Hm as (_ & _ & _ & _ & Hs).
  destruct (@first_group_shape url rx c1 Hrx L1)
    as (u & q1 & mid & q2 & -> & Hu & Hq1 & Hq2 & Hmid).
  set (mid' := lit "," ++ ws1 ++ lit ":ref" ++ ws2 ++ lit "=>" ++ ws3) in *.
  assert (Hmid' : quote_free mid').
  { unfold mid'.
    repeat apply quote_free_app; try (now apply white_quote_free);
      unfold quote_free; repeat constructor. }
  assert (E1 : c1' = u' ++ q1' :: mid' ++ [q2']).
  { rewrite H1. unfold mid'. now rewrite <- !app_assoc. }
  clearbody mid'. clear H1. subst c1' c3'.
  rewrite <- !app_assoc in Hs. cbn [app] in Hs. rewrite <- !app_assoc in Hs.
  cbn [app] in Hs.
  apply app_same_length in Hs as [-> Hs];
    [ | now rewrite (url_matches_length Hu), (url_matches_length Hu') ].
  injection Hs as -> Hs.
  apply first_quote_unique in Hs as (-> & -> & Hs); auto.
  apply first_quote_unique in Hs as (-> & _ & _); auto.
Qed.

(** ** A well-formed entry is read back *)

Lemma unmentioned_no_match_inside (url : str) (rx : regex) (pre u W : str) :
  module_regex url = Some rx ->
  ~ mentions url pre ->
  quote_free u ->
  length u = length url ->
  no_match_inside rx pre (u ++ W).
Proof.
  intros Hrx Hno Hu Hlen a c b Hpre.
  destruct (match_here rx (c :: b ++ u ++ W)) as [[[[c1' c2'] c3'] s3']|] eqn:Hm;
    [ exfalso | reflexivity ].
  pose proof (@module_regex_shape url rx _ _ _ _ _ [] Hrx Hm)
    as (u' & q1' & ws1 & ws2 & ws3 & q2' & q3' & ws4 & H1 & Hu' & Hq1' & _).
  cbn [cap1] in H1.
  apply match_here_sound in Hm as (_ & _ & _ & _ & Hs).
  rewrite H1 in Hs. rewrite <- !app_assoc in Hs.
  change (c :: b ++ u ++ W) with ((c :: b) ++ u ++ W) in Hs.
  apply app_eq_app in Hs as (l & [[E1 E2] | [E1 E2]]).
  - apply Hno. exists a, u', l. split; [ | exact Hu' ].
    rewrite Hpre. now rewrite E1.
  - assert (Hl : length l < length u).
    { apply url_matches_length in Hu'. rewrite E1, length_app in Hu'.
      simpl in Hu'. lia. }
    apply app_eq_app in E2 as (l2 & [[E3 E4] | [E3 E4]]).
    + destruct l2 as [|x l2].
      * rewrite app_nil_r in E3. subst l. lia.
      * simpl in E4. injection E4 as <- _.
        rewrite E3 in Hu. apply Forall_app in Hu as [_ Hu].
        apply Forall_inv in Hu. congruence.
    + rewrite E3, length_app in Hl. lia.
Qed.

Lemma lang_reference (url : str) (rx : regex) (ref : str) :
  module_regex url = Some rx ->
  ref <> [] -> quote_free ref -> lang (g2 rx) ref.
Proof.
  unfold module_regex. destruct (url_re url); [ | discriminate ].
  intros [= <-] Hne Hq. simpl. unfold Plus.
  destruct ref as [|c ref]; [ congruence | ].
  pose proof (Forall_inv Hq) as Hc. apply Forall_inv_tail in Hq.
  clear Hne. simpl in Hc.
  change (c :: ref) with ([c] ++ ref). constructor.
  - constructor. unfold is_quote in Hc. cbn [atom_ok]. now rewrite Hc.
  - induction Hq as [|x ref Hx Hq IH]; [ constructor | ].
    change (x :: ref) with ([x] ++ ref). constructor; [ | exact IH ].
    constructor. unfold is_quote in Hx. cbn [atom_ok]. now rewrite Hx.
Qed.

Lemma third_group_shape (url : str) (rx : regex) (c3 : str) :
  module_regex url = Some rx ->
  lang (g3 rx) c3 ->
  exists q ws, c3 = q :: ws /\ is_quote q = true /\ white ws.
Proof.
  unfold module_regex. destruct (url_re url); [ | discriminate ].
  intros [= <-] L3. simpl in L3.
  apply lang_seq_inv in L3 as (pq & ws & -> & Lq & Lw).
  apply lang_at_inv in Lq as (q & -> & Hq).
  apply lang_star_atom in Lw. exists q, ws. auto.
Qed.

(** When the text before an entry does not mention the URL, [exec] finds
    the entry and captures its reference. *)
Lemma exec_finds_first_mention (url : str) (rx : regex)
    (pre c1 ref c3 rest : str) :
  module_regex url = Some rx ->
  lang (g1 rx) c1 ->
  lang (g3 rx) c3 ->
  ref <> [] ->
  quote_free ref ->
  at_eol rest = true ->
  ~ mentions url pre ->
  quote_free (firstn (length url) c1) ->
  exists m,
    exec rx (pre ++ c1 ++ ref ++ c3 ++ rest) = Some m
    /\ before m = pre /\ cap1 m = c1 /\ cap2 m = ref.
Proof.
  intros Hrx L1 L3 Hne Href Heol Hno Hu.
  pose proof (@lang_reference url rx ref Hrx Hne Href) as L2.
  destruct (@match_here_complete rx c1 ref c3 rest L1 L2 L3 Heol) as ([[[c1' c2'] c3'] s3'] & Hm).
  destruct (@third_group_shape url rx c3 Hrx L3) as (q & ws & E3 & Hq & _).
  assert (Hcaps : c1' = c1 /\ c2' = ref).
  { apply (@captures_are_determined url rx c1 ref (ws ++ rest) c1' c2' c3' s3' q);
      auto.
    rewrite <- Hm. f_equal. rewrite E3. reflexivity. }
  destruct Hcaps as [-> ->].
  destruct (@first_group_shape url rx c1 Hrx L1)
    as (u & q1 & mid & q2 & E1 & Hurl & _).
  assert (Hfirst : firstn (length url) c1 = u).
  { rewrite E1, <- (@url_matches_length url u Hurl).
    rewrite firstn_app, Nat.sub_diag, firstn_all. simpl. apply app_nil_r. }
  rewrite Hfirst in Hu.
  assert (Hinside : no_match_inside rx pre (c1 ++ ref ++ c3 ++ rest)).
  { rewrite E1, <- app_assoc.
    apply (@unmentioned_no_match_inside url rx); auto.
    now apply url_matches_length. }
  unfold exec. rewrite (@search_finds rx _ _ _ _ _ Hm pre [] Hinside).
  eexists. split; [ reflexivity | ]. simpl. auto.
Qed.

Lemma url_re_self : forall url r, url_re url = Some r -> lang r url.
Proof.
  induction url as [|c url IH]; simpl; intros r Hr.
  - injection Hr as <-. constructor.
  - destruct (syntax_character c); [ discriminate | ].
    destruct (url_re url) as [r'|]; [ | discriminate ].
    injection Hr as <-. change (c :: url) with ([c] ++ url).
    constructor; [ | now apply IH ].
    constructor. destruct (N.eqb c 46) eqn:Hc; simpl.
    + apply N.eqb_eq in Hc. now subst c.
    + apply N.eqb_refl.
Qed.

Lemma lang_chars_self (l : str) : lang (chars l) l.
Proof.
  induction l as [|c l IH]; simpl; [ constructor | ].
  change (c :: l) with ([c] ++ l). constructor; [ | exact IH ].
  constructor. simpl. apply N.eqb_refl.
Qed.

Lemma lang_spaces (ws : str) : white ws -> lang spaces ws.
Proof.
  unfold spaces. induction 1 as [|c ws Hc _ IH]; [ constructor | ].
  change (c :: ws) with ([c] ++ ws). constructor; [ | exact IH ].
  now constructor.
Qed.

Lemma lang_quote (q : cu) : is_quote q = true -> lang quote [q].
Proof. intros Hq. unfold quote. now constructor. Qed.

(** The URL followed by the link of an entry is a first group. *)
Lemma lang_first_group (url : str) (rx : regex) (q : cu) :
  module_regex url = Some rx ->
  is_quote q = true ->
  lang (g1 rx) (url ++ entry_link q).
Proof.
  unfold module_regex. destruct (url_re url) as [ur|] eqn:Hu; [ | discriminate ].
  intros [= <-] Hq. cbn [g1].
  constructor; [ now apply url_re_self | ].
  change (entry_link q)
    with ([q] ++ lit "," ++ [newline; 32; 32]%N ++ lit ":ref" ++ [32%N]
          ++ lit "=>" ++ [32%N] ++ [q]).
  repeat first
    [ apply lang_seq
    | apply lang_quote; assumption
    | apply lang_chars_self
    | apply lang_spaces; unfold white; repeat constructor ].
  - exact (lang_chars_self (lit ",")).
  - exact (lang_chars_self (lit ":ref")).
  - exact (lang_chars_self (lit "=>")).
Qed.

Lemma lang_third_group (url : str) (rx : regex) (q : cu) :
  module_regex url = Some rx ->
  is_quote q = true ->
  lang (g3 rx) [q].
Proof.
  unfold module_regex. destruct (url_re url); [ | discriminate ].
  intros [= <-] Hq. cbn [g3]. change [q] with ([q] ++ []).
  constructor; [ now apply lang_quote | apply lang_spaces; constructor ].
Qed.

Lemma entry_parts (q : cu) (name url ref : str) :
  entry q name url ref
  = entry_lead q name ++ (url ++ entry_link q) ++ ref ++ [q] ++ [newline].
Proof.
  unfold entry, entry_lead, entry_link.
  repeat (rewrite <- app_assoc; cbn [app]). reflexivity.
Qed.

(** The entry that the handler writes is read back by [module_regex], for a
    URL that holds no syntax character of patterns other than the dot (for
    any other URL line 47 throws or builds an expression that is not
    modelled): in a text whose part before the URL of the entry does not
    mention the URL, [exec] finds the entry and captures its reference,
    whatever follows the entry.  The URL holds no quote, and the reference
    is not empty and holds no quote. *)
Theorem entry_is_read_back :
  forall (url : str) (rx : regex) (q : cu) (name ref head rest : str),
    module_regex url = Some rx ->
    is_quote q = true ->
    quote_free url ->
    ref <> [] ->
    quote_free ref ->
    ~ mentions url (head ++ entry_lead q name) ->
    exists m,
      exec rx (head ++ entry q name url ref ++ rest) = Some m
      /\ before m = head ++ entry_lead q name
      /\ cap1 m = url ++ entry_link q
      /\ cap2 m = ref.
Proof.
  intros url rx q name ref head rest Hrx Hq Hurl Hne Href Hno.
  destruct (@exec_finds_first_mention url rx (head ++ entry_lead q name)
              (url ++ entry_link q) ref [q] (newline :: rest) Hrx
              (@lang_first_group url rx q Hrx Hq)
              (@lang_third_group url rx q Hrx Hq) Hne Href eq_refl Hno)
    as (m & Hm & Hb & H1 & H2).
  - rewrite firstn_app, Nat.sub_diag, firstn_all. simpl.
    now rewrite app_nil_r.
  - exists m. split; [ | auto ].
    rewrite <- Hm. f_equal. rewrite entry_parts.
    repeat (rewrite <- app_assoc; cbn [app]). reflexivity.
Qed.

Lemma prefix_matches_complete (url u b : str) :
  url_matches url u -> prefix_matches url (u ++ b) = true.
Proof.
  induction 1 as [|p c url u Hpc _ IH]; simpl; [ reflexivity | ].
  now rewrite Hpc, IH.
Qed.

Lemma mentionsb_complete (url s : str) :
  mentions url s -> mentionsb url s = true.
Proof.
  intros (a & u & b & -> & Hu). induction a as [|x a IH].
  - simpl. destruct (u ++ b) eqn:E; simpl;
      rewrite <- E, (prefix_matches_complete b Hu); reflexivity.
  - simpl. rewrite IH. apply orb_true_r.
Qed.

Lemma not_mentioned (url s : str) : mentionsb url s = false -> ~ mentions url s.
Proof.
  intros H Hm. apply mentionsb_complete in Hm. congruence.
Qed.

(** The witness of the read-back: the Puppetfile lists another module, then
    the module, then a third one. *)
Lemma entry_is_read_back_witness :
  let head := entry squote (lit "apache")
                (lit "git@git.example.com:puppet/apache.git")
                (lit "production") in
  let rest := entry squote (lit "stdlib")
                (lit "git@git.example.com:puppet/stdlib.git") (lit "4.1.0") in
  exists m,
    exec ntp_regex
         (head ++ entry dquote (lit "ntp") ntp_url (lit "feature-x") ++ rest)
    = Some m
    /\ cap2 m = lit "feature-x".
Proof.
  intros head rest.
  destruct (@entry_is_read_back ntp_url ntp_regex dquote (lit "ntp")
              (lit "feature-x") head rest eq_refl eq_refl)
    as (m & Hm & _ & _ & H2).
  - unfold quote_free. repeat constructor.
  - discriminate.
  - unfold quote_free. repeat constructor.
  - apply not_mentioned. vm_compute. reflexivity.
  - exists m. split; assumption.
Defined.

(** ** A second run on the Puppetfile left by the first *)

Lemma branch_is_steady (w : world) (e : eventData) :
  branch e = puppetfileBranchName w e \/ branch e = production.
Proof.
  unfold puppetfileBranchName.
  destruct (str_eqb (branch e) production) eqn:E; [ right | now left ].
  now apply str_eqb_eq.
Qed.

(** A run that finds the entry in its steady state does not write, and on
    an existing branch does not commit; it pushes only if the checkout
    merged commits of production. *)
Lemma steady_run_is_quiet (rx : regex) (w : world) (e : eventData) content m :
  readFile_ans w = Ok content ->
  exec rx content = Some m ->
  cap2 m = puppetfileBranchName w e \/ cap2 m = production ->
  let st := snd (runModify_from rx w e init) in
  written st = []
  /\ (branchExist_ans w = Ok true ->
      commitNeeded st = false
      /\ performed is_commit st = false
      /\ (checkoutExisting_ans w = Ok false -> performed is_push st = false)).
Proof.
  intros Hread Hexec Href st. subst st.
  apply steady_guard in Href.
  apply (wp_run (runModify_from rx w e)
    (fun _ st =>
       written st = []
       /\ (branchExist_ans w = Ok true ->
           commitNeeded st = false
           /\ performed is_commit st = false
           /\ (checkoutExisting_ans w = Ok false ->
               performed is_push st = false)))).
  wp_run; unfold performed, written; simpl; split; auto; intros;
    try discriminate; repeat split; auto; intros; simpl in *;
    congruence.
Qed.

Lemma entries_unfold (rx : regex) (content : str) m :
  exec rx content = Some m ->
  entries rx content
  = ((before m, m)
       :: fst (segments (length content) rx (before m ++ whole m) (after m)),
     snd (segments (length content) rx (before m ++ whole m) (after m))).
Proof.
  unfold exec, entries. cbn [segments]. intros ->.
  now destruct (segments _ rx _ _).
Qed.

Lemma at_eol_app_nonempty (a b b' : str) :
  a <> [] -> at_eol (a ++ b) = at_eol (a ++ b').
Proof. destruct a; [ congruence | reflexivity ]. Qed.

(** Replacing the references does not change how the text starts. *)
Lemma rebuild_same_start (f : match_result -> str)
    (segs : list (str * match_result)) (tl : str) :
  Forall (fun seg => cap1 (snd seg) <> []) segs ->
  (forall m, exists x, f m = cap1 m ++ x) ->
  at_eol (rebuild f (segs, tl)) = at_eol (rebuild whole (segs, tl)).
Proof.
  intros Hne Hf. destruct segs as [|[sk m] segs]; [ reflexivity | ].
  rewrite !rebuild_cons. apply Forall_inv in Hne. simpl in Hne.
  destruct sk as [|c sk]; [ | reflexivity ].
  destruct (Hf m) as (x & ->). unfold whole. cbn [app].
  rewrite <- !app_assoc. now apply at_eol_app_nonempty.
Qed.

Lemma found_first_group (url : str) (rx : regex) (content : str) seg :
  module_regex url = Some rx ->
  found rx content seg ->
  lang (g1 rx) (cap1 (snd seg)) /\ lang (g3 rx) (cap3 (snd seg))
  /\ at_eol (after (snd seg)) = true /\ cap1 (snd seg) <> []
  /\ quote_free (cap2 (snd seg))
  /\ exists q ws, cap3 (snd seg) = q :: ws /\ is_quote q = true.
Proof.
  intros Hrx. destruct seg as [sk m]. intros (_ & Hm & _). cbn [snd].
  pose proof (@module_regex_shape url rx _ _ _ _ _ (before m) Hrx Hm)
    as (u & q1 & ws1 & ws2 & ws3 & q2 & q3 & ws4 & H1 & _ & _ & _ & Hq3 & _
        & _ & _ & _ & _ & H2 & H3 & _).
  cbn [cap1 cap2 cap3] in H1, H2, H3.
  apply match_here_sound in Hm as (L1 & _ & L3 & Heol & _).
  repeat split; auto.
  - rewrite H1. intros E. apply app_eq_nil in E as [_ E]. discriminate.
  - eauto.
Qed.

(** The Puppetfile as a rewrite leaves it: [exec] finds again the entry of
    the first match, now with the branch name as its reference. *)
Lemma rewritten_entry_is_read_back (url : str) (rx : regex)
    (content branchName : str) m :
  module_regex url = Some rx ->
  exec rx content = Some m ->
  branchName <> [] ->
  quote_free branchName ->
  ~ mentions url (before m) ->
  quote_free (firstn (length url) (cap1 m)) ->
  exists m',
    exec rx (rebuild (fun x => cap1 x ++ branchName ++ cap3 x)
                     (entries rx content))
    = Some m'
    /\ before m' = before m /\ cap1 m' = cap1 m /\ cap2 m' = branchName.
Proof.
  intros Hrx Hexec Hne Hq Hno Hu.
  rewrite (entries_unfold _ _ Hexec).
  set (X := segments (length content) rx (before m ++ whole m) (after m)).
  rewrite rebuild_cons.
  pose proof (segments_found rx (S (length content)) [] content) as Hall.
  fold (entries rx content) in Hall.
  rewrite (entries_unfold _ _ Hexec) in Hall. fold X in Hall. cbn [fst] in Hall.
  pose proof (Forall_inv Hall) as Hfirst. apply Forall_inv_tail in Hall.
  destruct (@found_first_group url rx _ _ Hrx Hfirst)
    as (L1 & L3 & Heol & _). cbn [snd] in L1, L3, Heol.
  assert (Heol' : at_eol (rebuild (fun x => cap1 x ++ branchName ++ cap3 x)
                                  (fst X, snd X)) = true).
  { rewrite rebuild_same_start.
    - replace (fst X, snd X) with X by now destruct X.
      unfold X. now rewrite segments_rebuild_whole.
    - eapply Forall_impl; [ | exact Hall ]. intros seg Hseg.
      now destruct (@found_first_group url rx _ _ Hrx Hseg)
        as (_ & _ & _ & H & _).
    - intros x. eauto. }
  destruct (@exec_finds_first_mention url rx (before m) (cap1 m) branchName
              (cap3 m) _ Hrx L1 L3 Hne Hq Heol' Hno Hu)
    as (m' & Hm' & Hb & H1 & H2).
  exists m'. split; [ | auto ].
  rewrite <- Hm'. now rewrite <- !app_assoc.
Qed.

Lemma second_run_is_quiet (w2 : world) (e : eventData) rx data m' r2 st2 :
  module_regex (repourl e) = Some rx ->
  runModify w2 e = Some (r2, st2) ->
  readFile_ans w2 = Ok data ->
  exec rx data = Some m' ->
  cap2 m' = branch e ->
  written st2 = []
  /\ (branchExist_ans w2 = Ok true ->
      commitNeeded st2 = false
      /\ performed is_commit st2 = false
      /\ (checkoutExisting_ans w2 = Ok false -> performed is_push st2 = false)).
Proof.
  intros Hrx Hrun Hread Hexec Hcap.
  pose proof (@runModify_from_eq w2 e rx r2 st2 Hrx Hrun) as ->.
  apply (@steady_run_is_quiet rx w2 e data m' Hread Hexec).
  rewrite Hcap. apply branch_is_steady.
Qed.

(** The entry that line 89 appends is found by [exec] in the text so
    written, with the branch name of the event as its reference. *)
Lemma appended_entry_is_read_back (e : eventData) (rx : regex) (content : str) :
  module_regex (repourl e) = Some rx ->
  quote_free (repourl e) ->
  branch e <> [] ->
  quote_free (branch e) ->
  ~ mentions (repourl e)
      (content ++ newline :: entry_lead dquote (reponame e)) ->
  exists m,
    exec rx (content ++ new_entry e) = Some m /\ cap2 m = branch e.
Proof.
  intros Hrx Hurl Hne Hq Hno.
  destruct (@exec_finds_first_mention (repourl e) rx
              ((content ++ [newline]) ++ entry_lead dquote (reponame e))
              (repourl e ++ entry_link dquote) (branch e) [dquote]
              [newline] Hrx
              (@lang_first_group (repourl e) rx dquote Hrx eq_refl)
              (@lang_third_group (repourl e) rx dquote Hrx eq_refl)
              Hne Hq eq_refl)
    as (m & Hm & _ & _ & H2).
  - now rewrite <- app_assoc.
  - rewrite firstn_app, Nat.sub_diag, firstn_all. simpl.
    now rewrite app_nil_r.
  - exists m. split; [ | exact H2 ].
    rewrite <- Hm. f_equal. unfold new_entry. rewrite entry_parts.
    repeat (rewrite <- app_assoc; cbn [app]). reflexivity.
Qed.

(** Idempotence after an append, for a URL that holds no syntax character
    of patterns other than the dot and no quote, and a branch name that is
    not empty and holds no quote: when the Puppetfile does not mention the
    URL of the module, up to and including the line of the new entry that
    names the module, the run appends the entry; a second run for the same
    event that reads the Puppetfile so written writes nothing, and on the
    branch that now exists it does not commit, nor push unless commits of
    production were merged. *)
Theorem second_run_after_an_append_writes_nothing :
  forall (w1 w2 : world) (e : eventData) rx content r1 st1 r2 st2,
    module_regex (repourl e) = Some rx ->
    quote_free (repourl e) ->
    branch e <> [] ->
    quote_free (branch e) ->
    ~ mentions (repourl e)
        (content ++ newline :: entry_lead dquote (reponame e)) ->
    runModify w1 e = Some (r1, st1) ->
    performed is_readFile st1 = true ->
    readFile_ans w1 = Ok content ->
    runModify w2 e = Some (r2, st2) ->
    readFile_ans w2 = Ok (last (written st1) content) ->
    written st1 = [content ++ new_entry e]
    /\ written st2 = []
    /\ (branchExist_ans w2 = Ok true ->
        commitNeeded st2 = false
        /\ performed is_commit st2 = false
        /\ (checkoutExisting_ans w2 = Ok false ->
            performed is_push st2 = false)).
Proof.
  intros w1 w2 e rx content r1 st1 r2 st2 Hrx Hurl Hne Hq Hno Hrun1 Hperf
         Hread1 Hrun2 Hread2.
  assert (Hnone : exec rx content = None).
  { apply (@unmentioned_no_match (repourl e)); [ exact Hrx | ].
    intros (a & u & b & -> & Hu). apply Hno.
    exists a, u, (b ++ newline :: entry_lead dquote (reponame e)).
    split; [ now rewrite <- !app_assoc | exact Hu ]. }
  assert (Hw1 : written st1 = [content ++ new_entry e]).
  { pose proof (@runModify_from_eq w1 e rx r1 st1 Hrx Hrun1) as E. subst st1.
    destruct (@run_update rx w1 e content Hread1 Hperf) as [Hw _].
    now rewrite Hnone in Hw. }
  split; [ exact Hw1 | ].
  rewrite Hw1 in Hread2. cbn [last] in Hread2.
  destruct (@appended_entry_is_read_back e rx content Hrx Hurl Hne Hq Hno)
    as (m' & Hm' & H2).
  apply (@second_run_is_quiet w2 e rx (content ++ new_entry e) m' r2 st2);
    auto.
Qed.

(** The witness of the idempotence after an append. *)
Lemma second_run_after_an_append_writes_nothing_witness :
  let content := entry squote (lit "apache")
                   (lit "git@git.example.com:puppet/apache.git")
                   (lit "production") in
  let e := ntp_event (lit "feature-x") in
  let w1 := calm None false false content in
  let w2 := calm None true false (content ++ new_entry e) in
  exists st1 st2,
    final_state w1 e = Some st1
    /\ final_state w2 e = Some st2
    /\ written st1 = [content ++ new_entry e]
    /\ written st2 = []
    /\ performed is_push st2 = false.
Proof.
  intros content e w1 w2.
  exists (snd (runModify_from ntp_regex w1 e init)),
         (snd (runModify_from ntp_regex w2 e init)).
  assert (Hrun1 : runModify w1 e
                  = Some (Ok tt, snd (runModify_from ntp_regex w1 e init)))
    by (vm_compute; reflexivity).
  assert (Hrun2 : runModify w2 e
                  = Some (Ok tt, snd (runModify_from ntp_regex w2 e init)))
    by (vm_compute; reflexivity).
  assert (Hurl : quote_free (repourl e))
    by (unfold quote_free; repeat constructor).
  assert (Hq : quote_free (branch e))
    by (unfold quote_free; repeat constructor).
  assert (Hne : branch e <> []) by discriminate.
  assert (Hno : ~ mentions (repourl e)
                    (content ++ newline :: entry_lead dquote (reponame e)))
    by (apply not_mentioned; vm_compute; reflexivity).
  assert (Hperf : performed is_readFile
                    (snd (runModify_from ntp_regex w1 e init)) = true)
    by (vm_compute; reflexivity).
  assert (Hread2 : readFile_ans w2
                   = Ok (last (written (snd (runModify_from ntp_regex w1 e
                                                            init)))
                              content))
    by (vm_compute; reflexivity).
  destruct (@second_run_after_an_append_writes_nothing
              w1 w2 e ntp_regex content _ _ _ _ eq_refl Hurl Hne Hq Hno
              Hrun1 Hperf eq_refl Hrun2 Hread2) as (H1 & H2 & H3).
  destruct (H3 eq_refl) as (_ & _ & H4).
  refine (conj _ (conj _ (conj H1 (conj H2 (H4 eq_refl))))).
  - unfold final_state. rewrite Hrun1. reflexivity.
  - unfold final_state. rewrite Hrun2. reflexivity.
Defined.

(** Idempotence after a rewrite: the first match is the first mention of
    the URL in the Puppetfile, its reference differs from the target branch
    and from production, and the branch name is not empty and holds neither
    a quote nor a dollar.  The run rewrites the references; a second run for
    the same event that reads the Puppetfile so written writes nothing, and
    on an existing branch it does not commit, nor push unless commits of
    production were merged. *)
Theorem second_run_after_a_rewrite_writes_nothing :
  forall (w1 w2 : world) (e : eventData) rx content m r1 st1 r2 st2,
    module_regex (repourl e) = Some rx ->
    exec rx content = Some m ->
    cap2 m <> puppetfileBranchName w1 e ->
    cap2 m <> production ->
    no_dollar (branch e) = true ->
    branch e <> [] ->
    quote_free (branch e) ->
    ~ mentions (repourl e) (before m) ->
    quote_free (firstn (length (repourl e)) (cap1 m)) ->
    runModify w1 e = Some (r1, st1) ->
    performed is_readFile st1 = true ->
    readFile_ans w1 = Ok content ->
    runModify w2 e = Some (r2, st2) ->
    readFile_ans w2 = Ok (last (written st1) content) ->
    written st1
    = [rebuild (fun x => cap1 x ++ branch e ++ cap3 x) (entries rx content)]
    /\ written st2 = []
    /\ (branchExist_ans w2 = Ok true ->
        commitNeeded st2 = false
        /\ performed is_commit st2 = false
        /\ (checkoutExisting_ans w2 = Ok false ->
            performed is_push st2 = false)).
Proof.
  intros w1 w2 e rx content m r1 st1 r2 st2 Hrx Hexec Hd1 Hd2 Hdollar Hne Hq
         Hno Hu Hrun1 Hperf Hread1 Hrun2 Hread2.
  assert (Hw1 : written st1
                = [rebuild (fun x => cap1 x ++ branch e ++ cap3 x)
                           (entries rx content)]).
  { pose proof (@runModify_from_eq w1 e rx r1 st1 Hrx Hrun1) as E. subst st1.
    destruct (@run_update rx w1 e content Hread1 Hperf) as [Hw _].
    rewrite Hexec, ref_differs_true in Hw by assumption.
    destruct (@entries_facts (repourl e) rx content Hrx)
      as (_ & _ & _ & _ & Hrep).
    rewrite Hw, Hrep. f_equal. apply rebuild_ext.
    intros x. now apply expand_ref_template. }
  split; [ exact Hw1 | ].
  rewrite Hw1 in Hread2. cbn [last] in Hread2.
  destruct (@rewritten_entry_is_read_back (repourl e) rx content (branch e) m
              Hrx Hexec Hne Hq Hno Hu) as (m' & Hm' & _ & _ & H2).
  exact (@second_run_is_quiet w2 e rx _ m' r2 st2 Hrx Hrun2 Hread2 Hm' H2).
Qed.

(** The witness of the idempotence after a rewrite: the repository is
    listed twice, with old references. *)
Lemma second_run_after_a_rewrite_writes_nothing_witness :
  let content := listed_twice squote (lit "old1") (lit "old2") in
  let data := listed_twice squote (lit "feature-x") (lit "feature-x") in
  let e := ntp_event (lit "feature-x") in
  let w1 := calm None true false content in
  let w2 := calm None true false data in
  exists st1 st2,
    final_state w1 e = Some st1
    /\ final_state w2 e = Some st2
    /\ written st1 = [data]
    /\ written st2 = []
    /\ performed is_commit st2 = false.
Proof.
  intros content data e w1 w2.
  exists (snd (runModify_from ntp_regex w1 e init)),
         (snd (runModify_from ntp_regex w2 e init)).
  assert (Hrun1 : runModify w1 e
                  = Some (Ok tt, snd (runModify_from ntp_regex w1 e init)))
    by (vm_compute; reflexivity).
  assert (Hrun2 : runModify w2 e
                  = Some (Ok tt, snd (runModify_from ntp_regex w2 e init)))
    by (vm_compute; reflexivity).
  assert (Hexec : exec ntp_regex content =
    Some {| before := lit "mod 'ntp'," ++ newline :: lit "  :git => '";
            cap1 := ntp_url ++ lit "'," ++ newline :: lit "  :ref => '";
            cap2 := lit "old1";
            cap3 := squote :: [newline];
            after := newline :: entry squote (lit "ntp_legacy") ntp_url
                                      (lit "old2") |})
    by (vm_compute; reflexivity).
  assert (Hq : quote_free (branch e))
    by (unfold quote_free; repeat constructor).
  assert (Hu : quote_free (firstn (length (repourl e))
                 (ntp_url ++ lit "'," ++ newline :: lit "  :ref => '")))
    by (unfold quote_free; vm_compute; repeat constructor).
  assert (Hno : ~ mentions (repourl e)
                    (lit "mod 'ntp'," ++ newline :: lit "  :git => '"))
    by (apply not_mentioned; vm_compute; reflexivity).
  assert (Hperf : performed is_readFile
                    (snd (runModify_from ntp_regex w1 e init)) = true)
    by (vm_compute; reflexivity).
  assert (Hread2 : readFile_ans w2
                   = Ok (last (written (snd (runModify_from ntp_regex w1 e
                                                            init)))
                              content))
    by (vm_compute; reflexivity).
  destruct (@second_run_after_a_rewrite_writes_nothing
              w1 w2 e ntp_regex content _ _ _ _ _ eq_refl Hexec
              ltac:(vm_compute; discriminate) ltac:(vm_compute; discriminate)
              eq_refl ltac:(discriminate) Hq Hno Hu
              Hrun1 Hperf eq_refl Hrun2 Hread2) as (H1 & H2 & H3).
  destruct (H3 eq_refl) as (_ & H4 & _).
  refine (conj _ (conj _ (conj _ (conj H2 H4)))).
  - unfold final_state. rewrite Hrun1. reflexivity.
  - unfold final_state. rewrite Hrun2. reflexivity.
  - rewrite H1. vm_compute. reflexivity.
Defined.

(** ** A write changes the Puppetfile *)

(** Whatever a run writes differs from the Puppetfile it has read, when the
    branch name holds neither a dollar nor a quote. *)
Theorem a_write_changes_the_puppetfile :
  forall (w : world) (e : eventData) rx content r st,
    module_regex (repourl e) = Some rx ->
    runModify w e = Some (r, st) ->
    performed is_readFile st = true ->
    readFile_ans w = Ok content ->
    no_dollar (branch e) = true ->
    quote_free (branch e) ->
    forall data, In data (written st) -> data <> content.
Proof.
  intros w e rx content r st Hrx Hrun Hperf Hread Hdollar Hq data Hin.
  pose proof (@runModify_from_eq w e rx r st Hrx Hrun) as E. subst st.
  destruct (@run_update rx w e content Hread Hperf) as [Hw _].
  rewrite Hw in Hin. clear Hw.
  destruct (exec rx content) as [m|] eqn:Hexec.
  - destruct (ref_differs w e m) eqn:Hdiff; [ | contradiction ].
    destruct Hin as [<- | []].
    destruct (@entries_facts (repourl e) rx content Hrx)
      as (Hwhole & Hfound & _ & _ & Hrep).
    rewrite Hrep.
    rewrite (rebuild_ext (fun x => expand x (ref_template e))
                         (fun x => cap1 x ++ branch e ++ cap3 x))
      by (intros x; now apply expand_ref_template).
    rewrite <- Hwhole at 2.
    rewrite (entries_unfold _ _ Hexec) in *.
    rewrite !rebuild_cons. cbn [fst] in Hfound.
    apply Forall_inv in Hfound.
    destruct (@found_first_group (repourl e) rx _ _ Hrx Hfound)
      as (_ & _ & _ & _ & Hq2 & q3 & ws & E3 & Hq3).
    cbn [snd] in Hq2, E3. unfold whole. rewrite E3.
    rewrite <- !app_assoc. intros E.
    repeat apply app_inv_head in E. cbn [app] in E.
    apply first_quote_unique in E as (E & _ & _); auto.
    unfold ref_differs in Hdiff. apply andb_true_iff in Hdiff as [D1 D2].
    rewrite <- E in D1, D2.
    destruct (branch_is_steady w e) as [Hb | Hb].
    + rewrite <- Hb, str_eqb_refl in D1. discriminate.
    + rewrite <- Hb, str_eqb_refl in D2. discriminate.
  - destruct Hin as [<- | []]. intros E.
    apply (f_equal (@length cu)) in E. rewrite length_app in E.
    unfold new_entry in E. simpl in E. lia.
Qed.

(** The witness of the change: one entry with an old reference. *)
Lemma a_write_changes_the_puppetfile_witness :
  let content := entry squote (lit "ntp") ntp_url (lit "old") in
  let w := calm None true false content in
  let e := ntp_event (lit "feature-x") in
  exists st data,
    final_state w e = Some st
    /\ written st = [data]
    /\ data <> content.
Proof.
  intros content w e.
  exists (snd (runModify_from ntp_regex w e init)),
         (entry squote (lit "ntp") ntp_url (lit "feature-x")).
  assert (Hrun : runModify w e
                 = Some (Ok tt, snd (runModify_from ntp_regex w e init)))
    by (vm_compute; reflexivity).
  assert (Hw : written (snd (runModify_from ntp_regex w e init))
               = [entry squote (lit "ntp") ntp_url (lit "feature-x")])
    by (vm_compute; reflexivity).
  assert (Hq : quote_free (branch e))
    by (unfold quote_free; repeat constructor).
  refine (conj _ (conj Hw _)).
  - unfold final_state. rewrite Hrun. reflexivity.
  - apply (@a_write_changes_the_puppetfile w e ntp_regex content _ _
             eq_refl Hrun ltac:(vm_compute; reflexivity) eq_refl eq_refl Hq).
    rewrite Hw. now left.
Defined.

(** ** When the callback is called *)

(** The try block calls the callback, with null, when every step before it
    has succeeded, and then its outcome is the outcome of that call. *)
Lemma try_block_callback (rx : regex) (w : world) (e : eventData) :
  let r0 := fst (try_block rx w e init) in
  let st0 := snd (try_block rx w e init) in
  count is_cbk st0 = (if performed is_cbk st0 then 1 else 0)
  /\ performed is_cbk st0 = no_failure_before 10 w st0
  /\ succeeded r0 = performed is_cbk st0 && succeeded (cbk_ans w).
Proof.
  intros r0 st0. subst r0 st0.
  apply (wp_run (try_block rx w e)
           (fun r0 st0 =>
              count is_cbk st0 = (if performed is_cbk st0 then 1 else 0)
              /\ performed is_cbk st0 = no_failure_before 10 w st0
              /\ succeeded r0
                 = performed is_cbk st0 && succeeded (cbk_ans w))).
  wp_run;
    try match goal with
        | |- context [succeeded (cbk_ans w)] =>
            let E := fresh "E" in destruct (cbk_ans w) eqn:E
        end;
    unfold count, performed, no_failure_before; simpl;
    repeat match goal with
           | H : _ = Ok _ |- _ => rewrite H
           | H : _ = Throw _ |- _ => rewrite H
           end;
    simpl; repeat split; reflexivity.
Qed.

(** The catch block calls the callback, with the error, when its two
    cleanup calls have succeeded. *)
Lemma catch_block_callback (w : world) (err : error) (st0 : state) :
  let r := fst (catch_block w err st0) in
  let st := snd (catch_block w err st0) in
  count is_cbk st = count is_cbk st0 + (if cleanup_ok w then 1 else 0)
  /\ succeeded r = cleanup_ok w && succeeded (catch_cbk_ans w)
  /\ forall err',
       r = Throw err' <->
       chdir_ans w = Throw err'
       \/ (chdir_ans w = Ok tt /\ catch_remove_ans w = Throw err')
       \/ (chdir_ans w = Ok tt /\ catch_remove_ans w = Ok tt
           /\ catch_cbk_ans w = Throw err').
Proof.
  unfold catch_block, cleanup_ok, bind, yield, count, log. cbn [calls].
  destruct (chdir_ans w) as [[]|e1]; cbn [fst snd calls succeeded andb].
  - destruct (catch_remove_ans w) as [[]|e2];
      cbn [fst snd calls succeeded andb].
    + destruct (catch_cbk_ans w) as [[]|e3];
        cbn [fst snd calls succeeded andb];
        (split; [ rewrite !filter_app, !length_app; simpl; lia | ]);
        (split; [ reflexivity | ]); intros err'; split.
      * discriminate.
      * intros [H | [[_ H] | (_ & _ & H)]]; discriminate.
      * intros [= <-]. auto.
      * intros [H | [[_ H] | (_ & _ & H)]]; congruence.
    + (split; [ rewrite !filter_app, !length_app; simpl; lia | ]).
      (split; [ reflexivity | ]); intros err'; split.
      * intros [= <-]. auto.
      * intros [H | [[_ H] | (_ & H & _)]]; congruence.
  - (split; [ rewrite !filter_app, !length_app; simpl; lia | ]).
    (split; [ reflexivity | ]); intros err'; split.
    + intros [= <-]. auto.
    + intros [H | [[H _] | (H & _)]]; congruence.
Qed.

(** An error thrown by the constructor of line 47 leaves the generator
    before anything is called. *)
Lemma line_47_throw_calls_nothing (w : world) (e : eventData) err :
  new_RegExp (repourl e) = Some (Throw err) ->
  runModify w e = Some (Throw err, init).
Proof. unfold runModify. now intros ->. Qed.

(** The callback and the outcome of a run.  When the constructor of line 47
    throws, the generator throws that error and nothing is called, the
    callback included.  Otherwise the try block calls the callback with
    null exactly when every step before it has succeeded, and it succeeds
    exactly when that call returns; the catch block calls the callback with
    the error exactly when the try block has failed, be it by the callback
    itself, and the return to the working directory and the removal of the
    clone directory have succeeded.  So the callback is called zero, one or
    two times; the generator returns normally exactly when the try block
    or else the three calls of the catch block have succeeded, and it
    throws exactly the error of the first failing call of the catch
    block. *)
Theorem callback_calls_and_outcome_of_a_run :
  forall (w : world) (e : eventData),
    match new_RegExp (repourl e) with
    | None => runModify w e = None
    | Some (Throw err) => runModify w e = Some (Throw err, init)
    | Some (Ok rx) =>
        let r0 := fst (try_block rx w e init) in
        let st0 := snd (try_block rx w e init) in
        exists r st,
          runModify w e = Some (r, st)
          /\ performed is_cbk st0 = no_failure_before 10 w st0
          /\ succeeded r0 = performed is_cbk st0 && succeeded (cbk_ans w)
          /\ count is_cbk st
             = (if performed is_cbk st0 then 1 else 0)
               + (if negb (succeeded r0) && cleanup_ok w then 1 else 0)
          /\ succeeded r
             = succeeded r0
               || cleanup_ok w && succeeded (catch_cbk_ans w)
          /\ forall err,
               r = Throw err <->
               succeeded r0 = false
               /\ (chdir_ans w = Throw err
                   \/ (chdir_ans w = Ok tt
                       /\ catch_remove_ans w = Throw err)
                   \/ (chdir_ans w = Ok tt
                       /\ catch_remove_ans w = Ok tt
                       /\ catch_cbk_ans w = Throw err))
    end.
Proof.
  intros w e. unfold runModify.
  destruct (new_RegExp (repourl e)) as [[rx|err]|]; try reflexivity.
  cbv zeta. cbn [runModify_after].
  exists (fst (runModify_from rx w e init)),
         (snd (runModify_from rx w e init)).
  split; [ now destruct (runModify_from rx w e init) | ].
  destruct (try_block_callback rx w e) as (Hcount & Hperf & Hsucc).
  split; [ exact Hperf | split; [ exact Hsucc | ] ].
  clear Hperf Hsucc.
  unfold runModify_from, try_catch.
  destruct (try_block rx w e init) as [[a|e0] st0];
    cbn [fst snd succeeded negb andb orb] in *.
  - split; [ rewrite Hcount; lia | ].
    split; [ reflexivity | ].
    intros err. split; [ discriminate | intros [H _]; discriminate ].
  - destruct (catch_block_callback w e0 st0) as (Hc & Hs & Ht).
    split; [ rewrite Hc, Hcount; reflexivity | ].
    split; [ exact Hs | ].
    intros err. rewrite (Ht err). tauto.
Qed.

(** A repository URL that holds [c++]: line 47 throws, and the run ends
    there, without any call. *)
Example url_with_two_quantifiers_ends_the_run_on_line_47 :
  forall (w : world) (branchName : str),
    runModify w (cpp_event branchName)
    = Some (Throw "SyntaxError: Nothing to repeat"%string, init).
Proof. intros w branchName. reflexivity. Qed.

(** A callback that throws when it is called with null is called a second
    time, by the catch block, with its own error. *)
Example throwing_callback_is_called_twice :
  let w := throwing_callback
             (entry squote (lit "ntp") ntp_url (lit "feature-x")) in
  exists st,
    runModify w (ntp_event (lit "feature-x")) = Some (Ok tt, st)
    /\ filter is_cbk (calls st)
       = [cbk None; cbk (Some "callback failed"%string)].
Proof. eexists. split; vm_compute; reflexivity. Qed.
